(** * Swarm: the simulation loop of a vertical-scrolling shooter

    A shallow embedding of [src/Application.js] (the scrolling variant, in
    which the world scrolls with the player) and of its sibling file (the
    screen-fixed variant, in which the player moves inside a fixed view).
    The two files share almost all of their text; the embedding is one
    development with a [Variant] flag, and a [match] on the flag wherever
    the two files differ.

    Numbers.  A JavaScript number is modelled as a rational ([Q]): finite
    values and exact arithmetic.  Statements about values are up to [==];
    statements about whole states are Leibniz equalities.  The program
    computes in floating point: what is stated of the timers and of the
    positions are comparisons, counts and the expressions the code itself
    evaluates, not identities that only exact arithmetic gives.

    Effects.  The program mutates the singleton [app] and calls collaborators
    that are not part of these files (parallax, particle engine, effects,
    the timer).  The state [App] holds every field the two files read or
    write, and a [log] to which the observed calls are appended in program
    order (see [Call]).  [Math.random()] reads a tape held in the state.

    Engine.  [Entity] and [EntityPool] belong to the engine's entities
    module.  The base-class [update] of an entity is a parameter of the
    environment; the pool operations are modelled from the specification. *)

From Stdlib Require Import QArith Qminmax Qround ZArith List Bool Lia Lqa.
Import ListNotations.

Local Open Scope Q_scope.

(** ** Data *)

Inductive Variant : Type :=
| Scrolling   (* src/Application.js *)
| Fixed.      (* the sibling file with BG_WIDTH = 576 *)

(** A view-bounds rectangle: offsets from the entity position and a size. *)
Record Rect : Type := mkRect {
  rect_x : Q;
  rect_y : Q;
  rect_w : Q;
  rect_h : Q
}.

(** [config.player] *)
Record PlayerConfig : Type := mkPlayerConfig {
  offsetX : Q;
  offsetY : Q;
  inputMoveMultiplier : Q;
  player_viewBounds : Rect
}.

(** [config.bullets] *)
Record BulletsConfig : Type := mkBulletsConfig {
  spawnCooldown : Q;
  bullets_viewBounds : Rect
}.

(** [config.enemies]; [types] is never empty, so it is kept as a first
    template and the remaining ones. *)
Record EnemiesConfig : Type := mkEnemiesConfig {
  spawnCooldownMin : Q;
  spawnCooldownMax : Q;
  types_first : Rect;
  types_rest : list Rect
}.

(** [src.config], which is imported by both files: the fields they read. *)
Record Config : Type := mkConfig {
  bgWidth : Q;
  bgHeight : Q;
  c_player : PlayerConfig;
  c_bullets : BulletsConfig;
  c_enemies : EnemiesConfig
}.

(** An entity as the two files use it: a position and the view bounds given
    by its configuration. *)
Record Entity : Type := mkEntity {
  ex : Q;
  ey : Q;
  viewBounds : Rect
}.

(** The environment of a run: which file, its configuration, and the
    base-class [Entity.prototype.update], which belongs to the engine and is
    left arbitrary. *)
Record Env : Type := mkEnv {
  variant : Variant;
  config : Config;
  Entity_update : Q -> Entity -> Entity
}.

(** [var BG_WIDTH], [var BG_HEIGHT] *)
Definition BG_WIDTH (E : Env) : Q :=
  match variant E with
  | Scrolling => bgWidth (config E)
  | Fixed => 576
  end.

Definition BG_HEIGHT (E : Env) : Q :=
  match variant E with
  | Scrolling => bgHeight (config E)
  | Fixed => 1024
  end.

(** Modelled from the spec: [Entity.prototype.reset(x, y, config)] of the
    engine's entity module, which sets the position and (re)applies the
    configuration; of the configuration only the view bounds are used here. *)
Definition Entity_reset (x y : Q) (vb : Rect) : Entity :=
  mkEntity x y vb.

(** ** Player *)

(** The player is an entity with the drag anchor of the current gesture;
    [view_visible] is [this.view.style.visible]. *)
Record Player : Type := mkPlayer {
  p_entity : Entity;
  view_visible : bool;
  inputStartX : Q;
  inputStartY : Q     (* only written and read by the screen-fixed file *)
}.

Definition OFF_X (E : Env) : Q := offsetX (c_player (config E)).
Definition OFF_Y (E : Env) : Q := offsetY (c_player (config E)).
Definition PLAYER_MOVE_MULT (E : Env) : Q :=
  inputMoveMultiplier (c_player (config E)).

(** The style of a view: [width], [height] and [scale]. *)
Record ViewStyle : Type := mkViewStyle {
  vs_width : Q;
  vs_height : Q;
  vs_scale : Q
}.

(** [Player.reset]; the screen-fixed file places the player relative to its
    superview, whose style is passed in. *)
Definition Player_reset (E : Env) (superview : ViewStyle) (p : Player) : Player :=
  match variant E with
  | Scrolling =>
      mkPlayer (Entity_reset (OFF_X E) (OFF_Y E) (player_viewBounds (c_player (config E))))
               (view_visible p) (inputStartX p) (inputStartY p)
  | Fixed =>
      let x := vs_width superview / 2 in
      let y := vs_height superview - 150 in
      mkPlayer (Entity_reset x y (player_viewBounds (c_player (config E))))
               (view_visible p) (inputStartX p) (inputStartY p)
  end.

(** [Player.update] is inherited: [Entity.prototype.update]. *)
Definition Player_update (E : Env) (dt : Q) (p : Player) : Player :=
  mkPlayer (Entity_update E dt (p_entity p))
           (view_visible p) (inputStartX p) (inputStartY p).

(** [Player.startInput] *)
Definition startInput (E : Env) (p : Player) : Player :=
  match variant E with
  | Scrolling =>
      mkPlayer (p_entity p) (view_visible p) (ex (p_entity p)) (inputStartY p)
  | Fixed =>
      mkPlayer (p_entity p) (view_visible p) (ex (p_entity p)) (ey (p_entity p))
  end.

(** [Player.updateInput] *)
Definition updateInput (E : Env) (dx dy : Q) (p : Player) : Player :=
  let e := p_entity p in
  match variant E with
  | Scrolling =>
      let dx := dx * PLAYER_MOVE_MULT E in
      mkPlayer (mkEntity (Qmax 0 (Qmin (BG_WIDTH E) (inputStartX p + dx)))
                         (ey e) (viewBounds e))
               (view_visible p) (inputStartX p) (inputStartY p)
  | Fixed =>
      let dx := dx * PLAYER_MOVE_MULT E in
      let dy := dy * PLAYER_MOVE_MULT E in
      mkPlayer (mkEntity (Qmax 0 (Qmin (BG_WIDTH E) (inputStartX p + dx)))
                         (Qmax 0 (Qmin (BG_HEIGHT E) (inputStartY p + dy)))
                         (viewBounds e))
               (view_visible p) (inputStartX p) (inputStartY p)
  end.

(** [Player.onDeath] *)
Definition onDeath (p : Player) : Player :=
  mkPlayer (p_entity p) false (inputStartX p) (inputStartY p).

(** [Player.getScreenY], a method of the scrolling file only. *)
Definition getScreenY (E : Env) (p : Player) : Q :=
  ey (p_entity p) - OFF_Y E.

(** A gesture: the moves that follow one [startInput]. *)
Definition moves (E : Env) (ds : list (Q * Q)) (p : Player) : Player :=
  fold_left (fun q d => updateInput E (fst d) (snd d) q) ds p.

(** The clamp of the specification, by cases. *)
Definition clamp (v lo hi : Q) : Q :=
  if Qlt_le_dec v lo then lo
  else if Qlt_le_dec hi v then hi
  else v.

(** [a < b] as a boolean. *)
Definition Qltb (a b : Q) : bool := negb (Qle_bool b a).

(** ** Entity pools *)

(** Modelled from the spec: the engine's [EntityPool], a recycler of fixed
    capacity.  Only the active entities are kept, in activation order; the
    free slots are the difference to [capacity]. *)
Record EntityPool : Type := mkPool {
  capacity : nat;
  active : list Entity
}.

(** Modelled from the spec: [EntityPool.obtain(x, y, config)] activates one
    inactive entity and resets it to the position and configuration; on a
    saturated pool it does nothing. *)
Definition obtain (x y : Q) (vb : Rect) (pl : EntityPool) : EntityPool :=
  if Nat.ltb (length (active pl)) (capacity pl)
  then mkPool (capacity pl) (active pl ++ [Entity_reset x y vb])
  else pl.

(** Modelled from the spec: [EntityPool.update(dt)] advances every active
    entity by the entity's own [update], in active-list order; an entity that
    releases itself there ([None]) leaves the active list, its siblings are
    each visited once. *)
Fixpoint update_all (upd : Entity -> option Entity) (l : list Entity) : list Entity :=
  match l with
  | [] => []
  | e :: l' =>
      match upd e with
      | Some e' => e' :: update_all upd l'
      | None => update_all upd l'
      end
  end.

Definition EntityPool_update (upd : Entity -> option Entity) (pl : EntityPool) : EntityPool :=
  mkPool (capacity pl) (update_all upd (active pl)).

(** Modelled from the spec: [EntityPool.reset()] releases all active
    entities. *)
Definition EntityPool_reset (pl : EntityPool) : EntityPool :=
  mkPool (capacity pl) [].

(** Modelled from the spec: [entity.release()] returns the slot of the
    entity (here: its index in the active list) to the free ones. *)
Definition release (i : nat) (pl : EntityPool) : EntityPool :=
  mkPool (capacity pl) (firstn i (active pl) ++ skipn (S i) (active pl)).

(** Modelled from the spec: two entities collide when their world-space
    bounds (position plus view bounds) overlap, edge contact included. *)
Definition collides (a b : Entity) : bool :=
  let al := ex a + rect_x (viewBounds a) in
  let ar := al + rect_w (viewBounds a) in
  let at_ := ey a + rect_y (viewBounds a) in
  let ab := at_ + rect_h (viewBounds a) in
  let bl := ex b + rect_x (viewBounds b) in
  let br := bl + rect_w (viewBounds b) in
  let bt := ey b + rect_y (viewBounds b) in
  let bb := bt + rect_h (viewBounds b) in
  Qle_bool al br && Qle_bool bl ar && Qle_bool at_ bb && Qle_bool bt ab.

(** The first entity of [l], from index [i] on, that collides with [a]. *)
Fixpoint first_collision (a : Entity) (l : list Entity) (i : nat) : option (nat * Entity) :=
  match l with
  | [] => None
  | b :: l' => if collides b a then Some (i, b) else first_collision a l' (S i)
  end.

(** The first pair, in the order of the two active lists, that collides. *)
Fixpoint first_pool_collision (l1 l2 : list Entity) (i : nat) : option (nat * (nat * Entity)) :=
  match l1 with
  | [] => None
  | a :: l1' =>
      match first_collision a l2 0%nat with
      | Some hit => Some (i, hit)
      | None => first_pool_collision l1' l2 (S i)
      end
  end.

(** ** The application state *)

(** [Bullets]: a pool with a spawn countdown. *)
Record Bullets : Type := mkBullets {
  b_spawnCooldown : Q;
  b_pool : EntityPool
}.

(** [Enemies]: a pool with a spawn countdown and the bounds of the next
    random interval. *)
Record Enemies : Type := mkEnemies {
  e_spawnCooldown : Q;
  spawnMin : Q;
  spawnMax : Q;
  e_pool : EntityPool
}.

(** [InputView]: the gesture being followed, as the identifier of its start
    event and its start point. *)
Record InputView : Type := mkInputView {
  startEvt : option nat;
  startPt : option (Q * Q)
}.

Inductive PoolName : Type := OfBullets | OfEnemies.

(** The calls that are observed, in program order: every call a method of
    [Application] makes (and its write to the element layer), and the
    [obtain] calls by which the two pools activate an entity. *)
Inductive Call : Type :=
| c_player_update (dt : Q)
| c_bullets_update (dt : Q)
| c_enemies_update (dt : Q)
| c_elementLayer_y (v : Q)
| c_parallax_update (ox oy : Q)
| c_onFirstPoolCollisions
| c_onFirstCollision
| c_particles_runTick (dt : Q)
| c_emitExplosion (x y : Q)
| c_release (p : PoolName) (i : nat)
| c_player_onDeath
| c_setTimeout_reset (delay : Q)
| c_player_reset
| c_parallax_reset
| c_bullets_reset
| c_enemies_reset
| c_inputLayer_reset
| c_killAllParticles
| c_obtain (p : PoolName) (x y : Q).

(** The singleton [app] with everything that hangs off it.  [rolls] is the
    tape of the values [Math.random()] is going to return. *)
Record App : Type := mkApp {
  score : Z;
  gameOver : bool;
  elementLayer_y : Q;
  layer_style : ViewStyle;
  player : Player;
  bullets : Bullets;
  enemies : Enemies;
  inputLayer : InputView;
  rolls : list Q;
  log : list Call
}.

Definition set_score (v : Z) (s : App) : App :=
  mkApp v (gameOver s) (elementLayer_y s) (layer_style s) (player s)
        (bullets s) (enemies s) (inputLayer s) (rolls s) (log s).

Definition set_gameOver (v : bool) (s : App) : App :=
  mkApp (score s) v (elementLayer_y s) (layer_style s) (player s)
        (bullets s) (enemies s) (inputLayer s) (rolls s) (log s).

Definition set_elementLayer_y (v : Q) (s : App) : App :=
  mkApp (score s) (gameOver s) v (layer_style s) (player s)
        (bullets s) (enemies s) (inputLayer s) (rolls s) (log s).

Definition set_player (v : Player) (s : App) : App :=
  mkApp (score s) (gameOver s) (elementLayer_y s) (layer_style s) v
        (bullets s) (enemies s) (inputLayer s) (rolls s) (log s).

Definition set_bullets (v : Bullets) (s : App) : App :=
  mkApp (score s) (gameOver s) (elementLayer_y s) (layer_style s) (player s)
        v (enemies s) (inputLayer s) (rolls s) (log s).

Definition set_enemies (v : Enemies) (s : App) : App :=
  mkApp (score s) (gameOver s) (elementLayer_y s) (layer_style s) (player s)
        (bullets s) v (inputLayer s) (rolls s) (log s).

Definition set_inputLayer (v : InputView) (s : App) : App :=
  mkApp (score s) (gameOver s) (elementLayer_y s) (layer_style s) (player s)
        (bullets s) (enemies s) v (rolls s) (log s).

Definition set_rolls (v : list Q) (s : App) : App :=
  mkApp (score s) (gameOver s) (elementLayer_y s) (layer_style s) (player s)
        (bullets s) (enemies s) (inputLayer s) v (log s).

(** Appends one observed call. *)
Definition call (c : Call) (s : App) : App :=
  mkApp (score s) (gameOver s) (elementLayer_y s) (layer_style s) (player s)
        (bullets s) (enemies s) (inputLayer s) (rolls s) (log s ++ [c]).

(** [Math.random()]: the next value of the tape ([0] once it is used up). *)
Definition random (s : App) : Q * App :=
  match rolls s with
  | [] => (0, s)
  | r :: t => (r, set_rolls t s)
  end.

(** Modelled from the spec: [utils.rollFloat(lo, hi)], a random float
    between [lo] and [hi], from a draw [r] of the unit interval. *)
Definition rollFloat (lo hi r : Q) : Q := lo + r * (hi - lo).

(** Modelled from the spec: [utils.choose(list)], a uniform choice among the
    elements, from a draw [r] of the unit interval. *)
Definition choose (first : Rect) (rest : list Rect) (r : Q) : Rect :=
  nth (Z.to_nat (Qfloor (r * inject_Z (Z.of_nat (S (length rest))))))
      (first :: rest) first.

(** ** Bullets *)

Definition SPAWN_COOLDOWN (E : Env) : Q := spawnCooldown (c_bullets (config E)).

Definition set_b_spawnCooldown (v : Q) (b : Bullets) : Bullets :=
  mkBullets v (b_pool b).

Definition set_b_pool (v : EntityPool) (b : Bullets) : Bullets :=
  mkBullets (b_spawnCooldown b) v.

(** [Bullet.update]: the inherited update, then the release test; [p] is
    [app.player].  [None] stands for [this.release()]. *)
Definition Bullet_update (E : Env) (p : Player) (dt : Q) (e : Entity) : option Entity :=
  let e := Entity_update E dt e in
  let b := viewBounds e in
  match variant E with
  | Scrolling =>
      if Qltb (ey e + rect_y b + rect_h b) (getScreenY E p) then None else Some e
  | Fixed =>
      if Qltb (ey e + rect_y b + rect_h b) 0 then None else Some e
  end.

(** [Bullets.reset] *)
Definition Bullets_reset (E : Env) (b : Bullets) : Bullets :=
  mkBullets (SPAWN_COOLDOWN E) (EntityPool_reset (b_pool b)).

(** [Bullets.spawnBullet] *)
Definition spawnBullet (E : Env) (s : App) : App :=
  if gameOver s then s
  else
    let x := ex (p_entity (player s)) in
    let y := ey (p_entity (player s)) in
    set_bullets
      (set_b_pool (obtain x y (bullets_viewBounds (c_bullets (config E)))
                          (b_pool (bullets s)))
                  (bullets s))
      (call (c_obtain OfBullets x y) s).

(** [Bullets.update] *)
Definition Bullets_update (E : Env) (dt : Q) (s : App) : App :=
  let s := set_bullets
             (set_b_spawnCooldown (b_spawnCooldown (bullets s) - dt) (bullets s)) s in
  let s :=
    if Qle_bool (b_spawnCooldown (bullets s)) 0 then
      let s := spawnBullet E s in
      set_bullets
        (set_b_spawnCooldown (b_spawnCooldown (bullets s) + SPAWN_COOLDOWN E)
                             (bullets s)) s
    else s in
  set_bullets
    (set_b_pool (EntityPool_update (Bullet_update E (player s) dt) (b_pool (bullets s)))
                (bullets s)) s.

(** ** Enemies *)

Definition set_e_spawnCooldown (v : Q) (e : Enemies) : Enemies :=
  mkEnemies v (spawnMin e) (spawnMax e) (e_pool e).

Definition set_spawnMax (v : Q) (e : Enemies) : Enemies :=
  mkEnemies (e_spawnCooldown e) (spawnMin e) v (e_pool e).

Definition set_e_pool (v : EntityPool) (e : Enemies) : Enemies :=
  mkEnemies (e_spawnCooldown e) (spawnMin e) (spawnMax e) v.

(** [Enemy.update] *)
Definition Enemy_update (E : Env) (p : Player) (dt : Q) (e : Entity) : option Entity :=
  let e := Entity_update E dt e in
  let b := viewBounds e in
  match variant E with
  | Scrolling =>
      if Qltb (getScreenY E p + BG_HEIGHT E) (ey e + rect_y b) then None else Some e
  | Fixed =>
      if Qltb (BG_HEIGHT E) (ey e + rect_y b) then None else Some e
  end.

(** [Enemies.reset] *)
Definition Enemies_reset (E : Env) (e : Enemies) : Enemies :=
  mkEnemies 0
            (spawnCooldownMin (c_enemies (config E)))
            (spawnCooldownMax (c_enemies (config E)))
            (EntityPool_reset (e_pool e)).

(** The difficulty ramp at the head of [Enemies.spawnEnemy]. *)
Definition ramp (e : Enemies) : Enemies :=
  if Qltb (spawnMin e) (spawnMax e) then set_spawnMax (spawnMax e - 1) e else e.

(** [Enemies.spawnEnemy] *)
Definition spawnEnemy (E : Env) (s : App) : App :=
  let s := set_enemies (ramp (enemies s)) s in
  let (r1, s) := random s in
  let type := choose (types_first (c_enemies (config E)))
                     (types_rest (c_enemies (config E))) r1 in
  let b := type in
  let (r2, s) := random s in
  let x := rollFloat 0 (BG_WIDTH E) r2 in
  let y := match variant E with
           | Scrolling => - (rect_y b + rect_h b) + getScreenY E (player s)
           | Fixed => - (rect_y b + rect_h b)
           end in
  set_enemies (set_e_pool (obtain x y type (e_pool (enemies s))) (enemies s))
              (call (c_obtain OfEnemies x y) s).

(** [Enemies.update] *)
Definition Enemies_update (E : Env) (dt : Q) (s : App) : App :=
  let s := set_enemies
             (set_e_spawnCooldown (e_spawnCooldown (enemies s) - dt) (enemies s)) s in
  let s :=
    if Qle_bool (e_spawnCooldown (enemies s)) 0 then
      let s := spawnEnemy E s in
      let (r, s) := random s in
      set_enemies
        (set_e_spawnCooldown
           (e_spawnCooldown (enemies s)
            + rollFloat (spawnMin (enemies s)) (spawnMax (enemies s)) r)
           (enemies s)) s
    else s in
  set_enemies
    (set_e_pool (EntityPool_update (Enemy_update E (player s) dt) (e_pool (enemies s)))
                (enemies s)) s.

(** ** Input *)

(** [InputView.reset] *)
Definition InputView_reset (i : InputView) : InputView :=
  mkInputView None None.

(** [InputView.onInputStart] *)
Definition onInputStart (E : Env) (evt : nat) (pt : Q * Q) (s : App) : App :=
  match startEvt (inputLayer s) with
  | None =>
      set_inputLayer (mkInputView (Some evt) (Some pt))
                     (set_player (startInput E (player s)) s)
  | Some _ => s
  end.

(** [InputView.onInputMove]; the start point is set together with the start
    event, so the last branch is never taken.  The scale of a view is not
    zero ([1 / 0] is [0] in [Q]). *)
Definition onInputMove (E : Env) (evt : nat) (pt : Q * Q) (s : App) : App :=
  match startEvt (inputLayer s), startPt (inputLayer s) with
  | Some e0, Some p0 =>
      if Nat.eqb evt e0 then
        let scale := 1 / vs_scale (layer_style s) in
        let dx := scale * (fst pt - fst p0) in
        let dy := scale * (snd pt - snd p0) in
        set_player (updateInput E dx dy (player s)) s
      else s
  | _, _ => s
  end.

(** [InputView.onInputSelect] *)
Definition onInputSelect (evt : nat) (s : App) : App :=
  match startEvt (inputLayer s) with
  | Some e0 =>
      if Nat.eqb evt e0 then set_inputLayer (InputView_reset (inputLayer s)) s else s
  | None => s
  end.

(** ** Application *)

(** [Application.reset] *)
Definition reset (E : Env) (s : App) : App :=
  let s := set_score 0%Z s in
  let s := set_gameOver false s in
  let s := match variant E with
           | Scrolling => set_elementLayer_y 0 (call (c_elementLayer_y 0) s)
           | Fixed => s
           end in
  let s := set_player (Player_reset E (layer_style s) (player s)) (call c_player_reset s) in
  let s := call c_parallax_reset s in
  let s := set_bullets (Bullets_reset E (bullets s)) (call c_bullets_reset s) in
  let s := set_enemies (Enemies_reset E (enemies s)) (call c_enemies_reset s) in
  let s := set_inputLayer (InputView_reset (inputLayer s)) (call c_inputLayer_reset s) in
  call c_killAllParticles s.

(** [Application.onBulletHit]; the bullet and the enemy are the active
    entities at index [i] and [j] of their pools. *)
Definition onBulletHit (i j : nat) (enemy : Entity) (s : App) : App :=
  let s := call (c_emitExplosion (ex enemy) (ey enemy)) s in
  let s := set_enemies (set_e_pool (release j (e_pool (enemies s))) (enemies s))
                       (call (c_release OfEnemies j) s) in
  set_bullets (set_b_pool (release i (b_pool (bullets s))) (bullets s))
              (call (c_release OfBullets i) s).

(** [Application.onGameOver] *)
Definition onGameOver (s : App) : App :=
  if negb (gameOver s) then
    let s := set_player (onDeath (player s)) (call c_player_onDeath s) in
    let s := call (c_emitExplosion (ex (p_entity (player s))) (ey (p_entity (player s)))) s in
    let s := set_gameOver true s in
    call (c_setTimeout_reset 2500) s
  else s.

(** Modelled from the spec: [bullets.onFirstPoolCollisions(enemies, fn)]
    calls the handler on the first colliding pair and stops. *)
Definition onFirstPoolCollisions (s : App) : App :=
  match first_pool_collision (active (b_pool (bullets s)))
                             (active (e_pool (enemies s))) 0%nat with
  | Some (i, (j, enemy)) => onBulletHit i j enemy s
  | None => s
  end.

(** Modelled from the spec: [enemies.onFirstCollision(player, fn)] calls the
    handler on the first enemy that collides with the player and stops. *)
Definition onFirstCollision (s : App) : App :=
  match first_collision (p_entity (player s)) (active (e_pool (enemies s))) 0%nat with
  | Some _ => onGameOver s
  | None => s
  end.

(** [Application.tick] *)
Definition tick (E : Env) (dt : Q) (s : App) : App :=
  let s := set_player (Player_update E dt (player s)) (call (c_player_update dt) s) in
  match variant E with
  | Scrolling =>
      let s := Bullets_update E dt (call (c_bullets_update dt) s) in
      let s := Enemies_update E dt (call (c_enemies_update dt) s) in
      let screenOffsetY := - getScreenY E (player s) in
      let s := set_elementLayer_y screenOffsetY (call (c_elementLayer_y screenOffsetY) s) in
      let s := call (c_parallax_update 0 screenOffsetY) s in
      let s := onFirstPoolCollisions (call c_onFirstPoolCollisions s) in
      let s := onFirstCollision (call c_onFirstCollision s) in
      call (c_particles_runTick dt) s
  | Fixed =>
      let s := call (c_parallax_update 0 0) s in
      let s := Bullets_update E dt (call (c_bullets_update dt) s) in
      let s := Enemies_update E dt (call (c_enemies_update dt) s) in
      let s := onFirstPoolCollisions (call c_onFirstPoolCollisions s) in
      let s := onFirstCollision (call c_onFirstCollision s) in
      call (c_particles_runTick dt) s
  end.

(** ** Runs *)

(** What the host can do to the application between two resets: a frame, an
    input event, a direct call of the game-over handler; and the timer that
    fires the scheduled reset. *)
Inductive Action : Type :=
| a_tick (dt : Q)
| a_onGameOver
| a_onInputStart (evt : nat) (pt : Q * Q)
| a_onInputMove (evt : nat) (pt : Q * Q)
| a_onInputSelect (evt : nat)
| a_timer_reset.

Definition step (E : Env) (s : App) (a : Action) : App :=
  match a with
  | a_tick dt => tick E dt s
  | a_onGameOver => onGameOver s
  | a_onInputStart evt pt => onInputStart E evt pt s
  | a_onInputMove evt pt => onInputMove E evt pt s
  | a_onInputSelect evt => onInputSelect evt s
  | a_timer_reset => reset E s
  end.

Definition run (E : Env) (acts : list Action) (s : App) : App :=
  fold_left (step E) acts s.

Definition is_reset (a : Action) : bool :=
  match a with a_timer_reset => true | _ => false end.

(** A run inside one session: the scheduled reset has not fired. *)
Definition within_session (acts : list Action) : bool :=
  forallb (fun a => negb (is_reset a)) acts.

(** ** Observations on the log *)

Definition is_bullet_obtain (c : Call) : bool :=
  match c with c_obtain OfBullets _ _ => true | _ => false end.

Definition is_enemy_obtain (c : Call) : bool :=
  match c with c_obtain OfEnemies _ _ => true | _ => false end.

Definition is_setTimeout (c : Call) : bool :=
  match c with c_setTimeout_reset _ => true | _ => false end.

Definition is_player_onDeath (c : Call) : bool :=
  match c with c_player_onDeath => true | _ => false end.

(** How many bullets have been fired and enemies spawned (the [obtain] calls
    of [spawnBullet] and [spawnEnemy]; a saturated pool drops the entity),
    how many resets have been scheduled, how often the player was hidden. *)
Definition fired (s : App) : nat := length (filter is_bullet_obtain (log s)).
Definition spawned (s : App) : nat := length (filter is_enemy_obtain (log s)).
Definition scheduled (s : App) : nat := length (filter is_setTimeout (log s)).
Definition hidden (s : App) : nat := length (filter is_player_onDeath (log s)).

(** The steps of a frame, as the driver takes them. *)
Inductive Phase : Type :=
| ph_player
| ph_layer       (* the element layer takes the scroll offset *)
| ph_parallax    (* the background takes the scroll offset *)
| ph_bullets
| ph_enemies
| ph_bullet_enemy
| ph_enemy_player
| ph_effects.

Definition phase_of (c : Call) : option Phase :=
  match c with
  | c_player_update _ => Some ph_player
  | c_bullets_update _ => Some ph_bullets
  | c_enemies_update _ => Some ph_enemies
  | c_elementLayer_y _ => Some ph_layer
  | c_parallax_update _ _ => Some ph_parallax
  | c_onFirstPoolCollisions => Some ph_bullet_enemy
  | c_onFirstCollision => Some ph_enemy_player
  | c_particles_runTick _ => Some ph_effects
  | _ => None
  end.

Fixpoint phases (l : list Call) : list Phase :=
  match l with
  | [] => []
  | c :: l' =>
      match phase_of c with
      | Some p => p :: phases l'
      | None => phases l'
      end
  end.

(** [n] frames of the bullets pool alone, each of length [dt]. *)
Definition Bullets_frames (E : Env) (dt : Q) (n : nat) (s : App) : App :=
  Nat.iter n (Bullets_update E dt) s.

(** A natural number as a JavaScript number. *)
Definition of_nat (n : nat) : Q := inject_Z (Z.of_nat n).


(** The calls a frame has added to the log of [s]. *)
Definition added (s s' : App) : list Call := skipn (length (log s)) (log s').

(** The top of the visible viewport in world coordinates: the player's
    scroll anchor in the scrolling file, [0] in the screen-fixed one. *)
Definition viewport_top (E : Env) (p : Player) : Q :=
  match variant E with
  | Scrolling => getScreenY E p
  | Fixed => 0
  end.

(** The edges of an entity in world coordinates. *)
Definition top_edge (e : Entity) : Q := ey e + rect_y (viewBounds e).
Definition bottom_edge (e : Entity) : Q :=
  ey e + rect_y (viewBounds e) + rect_h (viewBounds e).

(** The calls of the hit handler. *)
Definition is_hit_call (c : Call) : bool :=
  match c with
  | c_emitExplosion _ _ | c_release _ _ => true
  | _ => false
  end.

(** What a possible invocation of the game-over handler does to the flag
    (from [g] to [g']) and adds to the log: nothing, or the one transition
    from false to true with its three calls. *)
Definition game_over_step (g g' : bool) (l : list Call) : Prop :=
  (g' = g /\ l = [])
  \/ (g = false /\ g' = true
      /\ exists x y, l = [c_player_onDeath; c_emitExplosion x y; c_setTimeout_reset 2500]).

(** The first statement of [Enemies.update]: [dt] off the countdown. *)
Definition Enemies_count_down (dt : Q) (s : App) : App :=
  set_enemies (set_e_spawnCooldown (e_spawnCooldown (enemies s) - dt) (enemies s)) s.



(** The flag as a number. *)
Definition b2n (b : bool) : nat := if b then 1%nat else 0%nat.

(** The order of a frame as the code has it. *)
Definition code_frame_order (v : Variant) : list Phase :=
  match v with
  | Scrolling =>
      [ph_player; ph_bullets; ph_enemies; ph_layer; ph_parallax;
       ph_bullet_enemy; ph_enemy_player; ph_effects]
  | Fixed =>
      [ph_player; ph_parallax; ph_bullets; ph_enemies;
       ph_bullet_enemy; ph_enemy_player; ph_effects]
  end.

(** The order of a frame as the specification lists it. *)
Definition spec_frame_order (v : Variant) : list Phase :=
  match v with
  | Scrolling =>
      [ph_player; ph_layer; ph_parallax; ph_bullets; ph_enemies;
       ph_bullet_enemy; ph_enemy_player; ph_effects]
  | Fixed =>
      [ph_player; ph_bullets; ph_enemies;
       ph_bullet_enemy; ph_enemy_player; ph_effects]
  end.

(** The calls of one frame, given what its four variable parts add. *)
Definition frame_calls (v : Variant) (dt off : Q) (lb le lh lg : list Call) : list Call :=
  match v with
  | Scrolling =>
      [c_player_update dt; c_bullets_update dt] ++ lb
      ++ [c_enemies_update dt] ++ le
      ++ [c_elementLayer_y off; c_parallax_update 0 off; c_onFirstPoolCollisions] ++ lh
      ++ [c_onFirstCollision] ++ lg
      ++ [c_particles_runTick dt]
  | Fixed =>
      [c_player_update dt; c_parallax_update 0 0; c_bullets_update dt] ++ lb
      ++ [c_enemies_update dt] ++ le
      ++ [c_onFirstPoolCollisions] ++ lh
      ++ [c_onFirstCollision] ++ lg
      ++ [c_particles_runTick dt]
  end.

(** ** Sample data *)

(** A base-class update that leaves the entity where it is. *)
Definition still (dt : Q) (e : Entity) : Entity := e.

Definition sample_bounds : Rect := mkRect 0 0 20 20.

(** A configuration in the units of the specification's scenarios: a
    background of 576 by 1024, a move multiplier of 1, [cd] between two
    bullets and enemy intervals between [lo] and [hi]. *)
Definition sample_config (cd lo hi : Q) : Config :=
  mkConfig 576 1024
           (mkPlayerConfig 288 874 1 sample_bounds)
           (mkBulletsConfig cd sample_bounds)
           (mkEnemiesConfig lo hi sample_bounds []).

Definition sample_env (v : Variant) (cd lo hi : Q) : Env :=
  mkEnv v (sample_config cd lo hi) still.

(** A state before the first reset: nothing active, pools of 128 slots. *)
Definition blank_app : App :=
  mkApp 0%Z false 0 (mkViewStyle 576 1024 1)
        (mkPlayer (mkEntity 0 0 sample_bounds) true 0 0)
        (mkBullets 0 (mkPool 128 []))
        (mkEnemies 0 0 0 (mkPool 128 []))
        (mkInputView None None)
        [] [].

(** The state the game starts from. *)
Definition sample_app (E : Env) : App := reset E blank_app.

(** A bullet of the sample bounds at height [y]. *)
Definition sample_bullet (y : Q) : Entity := mkEntity 288 y sample_bounds.

(** The scrolling game with the player at its anchor, so that the scroll
    anchor [getScreenY] is [0]. *)
Definition scrolling_env : Env := sample_env Scrolling 1 1 2.
Definition scrolling_app : App := sample_app scrolling_env.

(** Bullets every tenth and every hundredth of the unit of time. *)
Definition tenth_env : Env := sample_env Fixed (1 # 10) 1 2.
Definition hundredth_env : Env := sample_env Fixed (1 # 100) 1 2.


(** ** The rest of the two files *)

(** [device.screen] *)
Record Screen : Type := mkScreen {
  ds_width : Q;
  ds_height : Q
}.

(** [Application.setScreenDimensions]: the style it gives the root view. *)
Definition setScreenDimensions (E : Env) (ds : Screen) (horz : bool) : ViewStyle :=
  mkViewStyle
    (if horz then ds_width ds * (BG_HEIGHT E / ds_height ds) else BG_WIDTH E)
    (if horz then BG_HEIGHT E else ds_height ds * (BG_WIDTH E / ds_width ds))
    (if horz then ds_height ds / BG_HEIGHT E else ds_width ds / BG_WIDTH E).

(** The argument [initUI] passes to it: [BG_WIDTH > BG_HEIGHT]. *)
Definition initUI_horz (E : Env) : bool := Qltb (BG_HEIGHT E) (BG_WIDTH E).

(** The move events of one touch, in the order in which they arrive. *)
Definition input_moves (E : Env) (evt : nat) (pts : list (Q * Q)) (s : App) : App :=
  fold_left (fun t pt => onInputMove E evt pt t) pts s.

(** The deltas [InputView.onInputMove] hands to the player for the point
    [pt] of a gesture that started at [p0]. *)
Definition drag (s : App) (p0 pt : Q * Q) : Q * Q :=
  (1 / vs_scale (layer_style s) * (fst pt - fst p0),
   1 / vs_scale (layer_style s) * (snd pt - snd p0)).

(** The three input events. *)
Definition is_input (a : Action) : bool :=
  match a with
  | a_onInputStart _ _ | a_onInputMove _ _ | a_onInputSelect _ => true
  | _ => false
  end.

(** The drag state of the player carried over from [p] to [p']: where the
    entity is, and the anchor of the gesture. *)
Definition same_body (p p' : Player) : Prop :=
  p_entity p' = p_entity p
  /\ inputStartX p' = inputStartX p
  /\ inputStartY p' = inputStartY p.

(** What a step of a frame other than the player's update and the scroll
    step leaves as it is. *)
Definition untouched (s s' : App) : Prop :=
  score s' = score s
  /\ elementLayer_y s' = elementLayer_y s
  /\ layer_style s' = layer_style s
  /\ inputLayer s' = inputLayer s
  /\ same_body (player s) (player s').

(** In the scrolling file: the element layer is shifted by the opposite of
    the player's scroll anchor. *)
Definition layer_follows_player (E : Env) (s : App) : Prop :=
  elementLayer_y s == - getScreenY E (player s).

(** * Properties *)

(** ** Comparisons *)

Lemma Qltb_lt (a b : Q) : Qltb a b = true <-> a < b.
Proof.
  unfold Qltb. rewrite negb_true_iff.
  split; intro H.
  - apply Qnot_le_lt. intro Hle. apply Qle_bool_iff in Hle. congruence.
  - destruct (Qle_bool b a) eqn:Hb; [|reflexivity].
    apply Qle_bool_iff in Hb. exfalso. apply (Qlt_not_le _ _ H Hb).
Qed.

Lemma Qltb_ge (a b : Q) : Qltb a b = false <-> b <= a.
Proof.
  unfold Qltb. rewrite negb_false_iff. apply Qle_bool_iff.
Qed.

Lemma Qle_bool_gt (a b : Q) : Qle_bool a b = false <-> b < a.
Proof.
  rewrite <- Qltb_lt. unfold Qltb. now rewrite negb_true_iff.
Qed.

Lemma Qmax_Qmin_clamp (v hi : Q) :
  0 <= hi -> Qmax 0 (Qmin hi v) == clamp v 0 hi.
Proof.
  intro Hhi. unfold clamp.
  destruct (Qlt_le_dec v 0) as [Hv|Hv].
  - rewrite Q.min_r by lra. apply Q.max_l. lra.
  - destruct (Qlt_le_dec hi v) as [Hh|Hh].
    + rewrite Q.min_l by lra. apply Q.max_r. exact Hhi.
    + rewrite Q.min_r by lra. apply Q.max_r. exact Hv.
Qed.

Lemma clamp_bounds (v lo hi : Q) : lo <= hi -> lo <= clamp v lo hi <= hi.
Proof.
  intro H. unfold clamp.
  destruct (Qlt_le_dec v lo); [lra|].
  destruct (Qlt_le_dec hi v); lra.
Qed.

(** ** Player *)

Lemma updateInput_x (E : Env) (dx dy : Q) (p : Player) :
  ex (p_entity (updateInput E dx dy p))
  = Qmax 0 (Qmin (BG_WIDTH E) (inputStartX p + dx * PLAYER_MOVE_MULT E)).
Proof. unfold updateInput. destruct (variant E); reflexivity. Qed.

Lemma updateInput_anchor (E : Env) (dx dy : Q) (p : Player) :
  inputStartX (updateInput E dx dy p) = inputStartX p
  /\ inputStartY (updateInput E dx dy p) = inputStartY p.
Proof. unfold updateInput. destruct (variant E); split; reflexivity. Qed.

(** A move overwrites whatever an earlier move of the same gesture did. *)
Lemma updateInput_absorbs (E : Env) (dx dy dx' dy' : Q) (p : Player) :
  updateInput E dx dy (updateInput E dx' dy' p) = updateInput E dx dy p.
Proof. unfold updateInput. destruct (variant E); reflexivity. Qed.

Lemma updateInput_after_moves (E : Env) (ds : list (Q * Q)) (dx dy : Q) (p : Player) :
  updateInput E dx dy (moves E ds p) = updateInput E dx dy p.
Proof.
  revert p. induction ds as [|d ds IH]; intro p; simpl.
  - reflexivity.
  - unfold moves in *. simpl. rewrite IH. apply updateInput_absorbs.
Qed.

(** C5: for every gesture delta, [updateInput] sets the horizontal position
    to the clamp of anchor + dx * multiplier into [0, BG_WIDTH], so it stays
    inside that interval; from the anchor 288 with dx = 1000 and a
    multiplier of 1 on a background 576 wide the result is 576. *)
Theorem updateInput_clamps_x (E : Env) (dx dy : Q) (p : Player) :
  0 <= BG_WIDTH E ->
  let x' := ex (p_entity (updateInput E dx dy p)) in
  x' == clamp (inputStartX p + dx * PLAYER_MOVE_MULT E) 0 (BG_WIDTH E)
  /\ 0 <= x' <= BG_WIDTH E
  /\ (inputStartX p == 288 -> dx == 1000 -> PLAYER_MOVE_MULT E == 1 ->
      BG_WIDTH E == 576 -> x' == 576 /\ ~ x' == 1288).
Proof.
  intros Hw x'. subst x'. rewrite updateInput_x.
  assert (Hc := Qmax_Qmin_clamp (inputStartX p + dx * PLAYER_MOVE_MULT E) _ Hw).
  split; [exact Hc|]. split.
  - rewrite Hc. apply clamp_bounds. exact Hw.
  - intros Ha Hd Hm Hb. rewrite Hc. unfold clamp.
    destruct (Qlt_le_dec _ 0) as [H0|H0].
    + rewrite Ha, Hd, Hm in H0. lra.
    + destruct (Qlt_le_dec (BG_WIDTH E) _) as [H1|H1].
      * split; [exact Hb|]. rewrite Hb. intro Hx. lra.
      * rewrite Ha, Hd, Hm, Hb in H1. lra.
Qed.

Lemma updateInput_clamps_x_witness :
  0 <= BG_WIDTH (sample_env Fixed 1 1 2)
  /\ ex (p_entity (updateInput (sample_env Fixed 1 1 2) 1000 0
                     (mkPlayer (mkEntity 288 874 sample_bounds) true 288 874)))
     == 576.
Proof.
  assert (H : 0 <= BG_WIDTH (sample_env Fixed 1 1 2)) by (vm_compute; discriminate).
  split; [exact H|].
  apply (updateInput_clamps_x (sample_env Fixed 1 1 2) 1000 0
           (mkPlayer (mkEntity 288 874 sample_bounds) true 288 874) H);
    reflexivity.
Defined.

(** C10: within one gesture the player ends where the last move alone puts
    it from the anchor, whatever moves came before; and a move repeated is
    the move made once. *)
Theorem gesture_is_history_free (E : Env) (p : Player) (ds : list (Q * Q)) (dx dy : Q) :
  moves E (ds ++ [(dx, dy)]) (startInput E p) = updateInput E dx dy (startInput E p)
  /\ (forall q : Player,
        updateInput E dx dy (updateInput E dx dy q) = updateInput E dx dy q).
Proof.
  split.
  - unfold moves. rewrite fold_left_app. simpl.
    apply (updateInput_after_moves E ds dx dy (startInput E p)).
  - intro q. apply updateInput_absorbs.
Qed.

(** ** Bullets leave at the top *)

Lemma Bullet_update_cases (E : Env) (p : Player) (dt : Q) (e : Entity) :
  Bullet_update E p dt e
  = if Qltb (bottom_edge (Entity_update E dt e)) (viewport_top E p)
    then None else Some (Entity_update E dt e).
Proof.
  unfold Bullet_update, viewport_top, bottom_edge.
  destruct (variant E); reflexivity.
Qed.

(** C4, as the code has it: a bullet is released during [Bullet.update]
    exactly when its bottom edge (position.y + viewBounds.y + viewBounds.h),
    after the inherited update, is above the top of the viewport
    ([getScreenY()] in the scrolling file, 0 in the screen-fixed one); a
    bullet with viewBounds {y:0, h:20} moved to y = -25 with the viewport
    top at 0 is released. *)
Theorem Bullet_update_releases_past_bottom_edge
        (E : Env) (p : Player) (dt : Q) (e : Entity) :
  (Bullet_update E p dt e = None
   <-> bottom_edge (Entity_update E dt e) < viewport_top E p)
  /\ (Bullet_update E p dt e = Some (Entity_update E dt e)
      <-> viewport_top E p <= bottom_edge (Entity_update E dt e))
  /\ (ey (Entity_update E dt e) == -25 ->
      rect_y (viewBounds (Entity_update E dt e)) == 0 ->
      rect_h (viewBounds (Entity_update E dt e)) == 20 ->
      viewport_top E p == 0 ->
      Bullet_update E p dt e = None).
Proof.
  rewrite Bullet_update_cases.
  destruct (Qltb _ _) eqn:Hlt.
  - apply Qltb_lt in Hlt. repeat split; try easy.
    intro Hle. exfalso. apply (Qlt_not_le _ _ Hlt Hle).
  - apply Qltb_ge in Hlt. repeat split; try easy.
    + intro H. exfalso. apply (Qlt_not_le _ _ H Hlt).
    + intros Hy Hby Hbh Htop. exfalso.
      unfold bottom_edge in Hlt. rewrite Hy, Hby, Hbh, Htop in Hlt. lra.
Qed.

(** C4 as stated fails: a bullet whose top edge is above the viewport top
    while its bottom edge is not stays in the pool. *)
Lemma Bullet_update_top_edge_counterexample :
  viewport_top scrolling_env (player scrolling_app) == 0
  /\ top_edge (Entity_update scrolling_env 0 (sample_bullet (-10)))
     < viewport_top scrolling_env (player scrolling_app)
  /\ Bullet_update scrolling_env (player scrolling_app) 0 (sample_bullet (-10))
     = Some (sample_bullet (-10)).
Proof. vm_compute. repeat split; discriminate. Qed.

(** ** Reset *)

(** C7: whatever the state, after [reset] the score is 0, [gameOver] is
    false, no bullet and no enemy is active, and the spawn counters are back
    at their configured values. *)
Theorem reset_restores_session (E : Env) (s : App) :
  score (reset E s) = 0%Z
  /\ gameOver (reset E s) = false
  /\ active (b_pool (bullets (reset E s))) = []
  /\ active (e_pool (enemies (reset E s))) = []
  /\ b_spawnCooldown (bullets (reset E s)) = SPAWN_COOLDOWN E
  /\ e_spawnCooldown (enemies (reset E s)) = 0
  /\ spawnMin (enemies (reset E s)) = spawnCooldownMin (c_enemies (config E))
  /\ spawnMax (enemies (reset E s)) = spawnCooldownMax (c_enemies (config E)).
Proof.
  unfold reset. destruct (variant E); cbn; repeat split; reflexivity.
Qed.

(** ** The state transformers in normal form *)

Lemma random_spec (s : App) :
  exists r t, random s = (r, set_rolls t s).
Proof.
  unfold random. destruct s as [sc go ly st pl bu en il ro lg]; cbn.
  destruct ro as [|r t]; [exists 0, [] | exists r, t]; reflexivity.
Qed.

Lemma spawnEnemy_spec (E : Env) (s : App) :
  exists x y vb t,
    spawnEnemy E s
    = mkApp (score s) (gameOver s) (elementLayer_y s) (layer_style s) (player s)
            (bullets s)
            (set_e_pool (obtain x y vb (e_pool (enemies s))) (ramp (enemies s)))
            (inputLayer s) t (log s ++ [c_obtain OfEnemies x y]).
Proof.
  unfold spawnEnemy. cbv zeta.
  destruct (random_spec (set_enemies (ramp (enemies s)) s)) as (r1 & t1 & H1).
  rewrite H1.
  destruct (random_spec (set_rolls t1 (set_enemies (ramp (enemies s)) s)))
    as (r2 & t2 & H2).
  rewrite H2. 
  do 4 eexists. cbn. 
  replace (e_pool (ramp (enemies s))) with (e_pool (enemies s))
    by (unfold ramp; destruct (Qltb _ _); reflexivity).
  reflexivity.
Qed.

Lemma spawnBullet_spec (E : Env) (s : App) :
  exists pl,
    spawnBullet E s
    = mkApp (score s) (gameOver s) (elementLayer_y s) (layer_style s) (player s)
            (mkBullets (b_spawnCooldown (bullets s)) pl)
            (enemies s) (inputLayer s) (rolls s)
            (log s ++ (if gameOver s then []
                       else [c_obtain OfBullets (ex (p_entity (player s)))
                                      (ey (p_entity (player s)))])).
Proof.
  unfold spawnBullet.
  destruct s as [sc go ly st pl bu en il ro lg]; cbn.
  destruct go; cbn.
  - exists (b_pool bu). rewrite app_nil_r. destruct bu; reflexivity.
  - eexists. reflexivity.
Qed.

Lemma Bullets_update_spec (E : Env) (dt : Q) (s : App) :
  exists pl,
    Bullets_update E dt s
    = mkApp (score s) (gameOver s) (elementLayer_y s) (layer_style s) (player s)
            (mkBullets
               (if Qle_bool (b_spawnCooldown (bullets s) - dt) 0
                then b_spawnCooldown (bullets s) - dt + SPAWN_COOLDOWN E
                else b_spawnCooldown (bullets s) - dt)
               pl)
            (enemies s) (inputLayer s) (rolls s)
            (log s ++ (if Qle_bool (b_spawnCooldown (bullets s) - dt) 0
                          && negb (gameOver s)
                       then [c_obtain OfBullets (ex (p_entity (player s)))
                                      (ey (p_entity (player s)))]
                       else [])).
Proof.
  unfold Bullets_update. cbv zeta.
  cbn [bullets set_bullets set_b_spawnCooldown b_spawnCooldown b_pool].
  destruct (Qle_bool (b_spawnCooldown (bullets s) - dt) 0) eqn:Hle.
  - match goal with |- context [spawnBullet E ?a] =>
      destruct (spawnBullet_spec E a) as (pl & Hs); rewrite Hs end.
    cbn. eexists. destruct (gameOver s); reflexivity.
  - cbn. eexists. rewrite app_nil_r. reflexivity.
Qed.

Lemma Enemies_update_spec (E : Env) (dt : Q) (s : App) :
  exists cd pl t l,
    Enemies_update E dt s
    = mkApp (score s) (gameOver s) (elementLayer_y s) (layer_style s) (player s)
            (bullets s)
            (mkEnemies cd (spawnMin (enemies s))
               (if Qle_bool (e_spawnCooldown (enemies s) - dt) 0
                then spawnMax (ramp (enemies s)) else spawnMax (enemies s))
               pl)
            (inputLayer s) t (log s ++ l)
    /\ (if Qle_bool (e_spawnCooldown (enemies s) - dt) 0
        then exists x y, l = [c_obtain OfEnemies x y]
        else l = [] /\ cd = e_spawnCooldown (enemies s) - dt /\ t = rolls s).
Proof.
  unfold Enemies_update. cbv zeta.
  cbn [enemies set_enemies set_e_spawnCooldown e_spawnCooldown e_pool spawnMin spawnMax].
  destruct (Qle_bool (e_spawnCooldown (enemies s) - dt) 0) eqn:Hle.
  - match goal with |- context [spawnEnemy E ?a] =>
      destruct (spawnEnemy_spec E a) as (x & y & vb & t & Hs); rewrite Hs end.
    match goal with |- context [random ?a] =>
      destruct (random_spec a) as (r & t' & Hr); rewrite Hr end.
    unfold ramp. cbn.
    destruct (Qltb _ _); cbn; do 4 eexists; (split; [reflexivity | eauto]).
  - cbn. do 4 eexists. split; [rewrite app_nil_r; reflexivity|].
    repeat split.
Qed.

(** ** The difficulty ramp *)





(** ** The bullet timer *)

Lemma count_app (f : Call -> bool) (l1 l2 : list Call) :
  length (filter f (l1 ++ l2)) = (length (filter f l1) + length (filter f l2))%nat.
Proof. rewrite filter_app, length_app. reflexivity. Qed.

Lemma Bullets_update_gameOver (E : Env) (dt : Q) (s : App) :
  gameOver (Bullets_update E dt s) = gameOver s.
Proof. destruct (Bullets_update_spec E dt s) as (pl & H). rewrite H. reflexivity. Qed.

Lemma Bullets_update_cooldown (E : Env) (dt : Q) (s : App) :
  b_spawnCooldown (bullets (Bullets_update E dt s))
  = if Qle_bool (b_spawnCooldown (bullets s) - dt) 0
    then b_spawnCooldown (bullets s) - dt + SPAWN_COOLDOWN E
    else b_spawnCooldown (bullets s) - dt.
Proof. destruct (Bullets_update_spec E dt s) as (pl & H). rewrite H. reflexivity. Qed.

Lemma Bullets_update_fired (E : Env) (dt : Q) (s : App) :
  fired (Bullets_update E dt s)
  = (fired s
     + if Qle_bool (b_spawnCooldown (bullets s) - dt) 0 && negb (gameOver s)
       then 1 else 0)%nat.
Proof.
  destruct (Bullets_update_spec E dt s) as (pl & H). rewrite H.
  unfold fired. cbn [log]. rewrite count_app.
  destruct (Qle_bool _ _ && negb _); reflexivity.
Qed.



Lemma Bullets_frames_S (E : Env) (dt : Q) (n : nat) (s : App) :
  Bullets_frames E dt (S n) s = Bullets_update E dt (Bullets_frames E dt n s).
Proof. reflexivity. Qed.

Lemma Bullets_frames_gameOver (E : Env) (dt : Q) (n : nat) (s : App) :
  gameOver (Bullets_frames E dt n s) = gameOver s.
Proof.
  induction n as [|n IH]; [reflexivity|].
  rewrite Bullets_frames_S, Bullets_update_gameOver. exact IH.
Qed.





(** ** Frames *)

Lemma onGameOver_spec (s : App) :
  exists go pl lg,
    onGameOver s
    = mkApp (score s) go (elementLayer_y s) (layer_style s)
            pl (bullets s) (enemies s) (inputLayer s) (rolls s) (log s ++ lg)
    /\ game_over_step (gameOver s) go lg.
Proof.
  unfold onGameOver. destruct s as [sc go ly st pl bu en il ro lg]; cbn.
  destruct go; cbn.
  - exists true, pl, []. rewrite app_nil_r. split; [reflexivity|].
    left. split; reflexivity.
  - unfold call, set_gameOver, set_player. cbn.
    do 3 eexists. rewrite <- !app_assoc. cbn. split; [reflexivity|].
    right. repeat split. eauto.
Qed.

Lemma onFirstCollision_spec (s : App) :
  exists go pl lg,
    onFirstCollision s
    = mkApp (score s) go (elementLayer_y s) (layer_style s)
            pl (bullets s) (enemies s) (inputLayer s) (rolls s) (log s ++ lg)
    /\ game_over_step (gameOver s) go lg.
Proof.
  unfold onFirstCollision. destruct (first_collision _ _ _).
  - apply onGameOver_spec.
  - exists (gameOver s), (player s), []. rewrite app_nil_r. split.
    + destruct s; reflexivity.
    + left. split; reflexivity.
Qed.

Lemma onFirstPoolCollisions_spec (s : App) :
  exists pb pe lh,
    onFirstPoolCollisions s
    = mkApp (score s) (gameOver s) (elementLayer_y s) (layer_style s) (player s)
            (mkBullets (b_spawnCooldown (bullets s)) pb)
            (mkEnemies (e_spawnCooldown (enemies s)) (spawnMin (enemies s))
                       (spawnMax (enemies s)) pe)
            (inputLayer s) (rolls s) (log s ++ lh)
    /\ forallb is_hit_call lh = true.
Proof.
  unfold onFirstPoolCollisions.
  destruct (first_pool_collision _ _ _) as [[i [j enemy]]|].
  - unfold onBulletHit, call, set_enemies, set_bullets. cbn.
    do 3 eexists. rewrite <- !app_assoc. cbn.
    split; reflexivity.
  - exists (b_pool (bullets s)), (e_pool (enemies s)), []. rewrite app_nil_r.
    split; [|reflexivity].
    destruct s as [sc go ly st pl [bc bp] [ec mi ma ep] il ro lg]; reflexivity.
Qed.

(** What each step of a frame does to the log, the flag, the player and the
    counters of the two pools. *)
Lemma Bullets_update_obs (E : Env) (dt : Q) (s : App) :
  log (Bullets_update E dt s)
  = log s ++ (if Qle_bool (b_spawnCooldown (bullets s) - dt) 0 && negb (gameOver s)
              then [c_obtain OfBullets (ex (p_entity (player s)))
                             (ey (p_entity (player s)))]
              else [])
  /\ gameOver (Bullets_update E dt s) = gameOver s
  /\ player (Bullets_update E dt s) = player s
  /\ enemies (Bullets_update E dt s) = enemies s.
Proof.
  destruct (Bullets_update_spec E dt s) as (pl & H). rewrite H.
  repeat split; reflexivity.
Qed.

Lemma Enemies_update_obs (E : Env) (dt : Q) (s : App) :
  exists le,
    log (Enemies_update E dt s) = log s ++ le
    /\ (if Qle_bool (e_spawnCooldown (enemies s) - dt) 0
        then exists x y, le = [c_obtain OfEnemies x y]
        else le = [])
    /\ gameOver (Enemies_update E dt s) = gameOver s
    /\ player (Enemies_update E dt s) = player s
    /\ bullets (Enemies_update E dt s) = bullets s
    /\ spawnMin (enemies (Enemies_update E dt s)) = spawnMin (enemies s)
    /\ spawnMax (enemies (Enemies_update E dt s))
       = (if Qle_bool (e_spawnCooldown (enemies s) - dt) 0
          then spawnMax (ramp (enemies s)) else spawnMax (enemies s)).
Proof.
  destruct (Enemies_update_spec E dt s) as (cd & pl & t & le & H & Hle).
  rewrite H. exists le. cbn.
  repeat split; try reflexivity.
  destruct (Qle_bool _ _); tauto.
Qed.

Lemma onFirstPoolCollisions_obs (s : App) :
  exists lh,
    log (onFirstPoolCollisions s) = log s ++ lh
    /\ forallb is_hit_call lh = true
    /\ gameOver (onFirstPoolCollisions s) = gameOver s
    /\ player (onFirstPoolCollisions s) = player s
    /\ spawnMin (enemies (onFirstPoolCollisions s)) = spawnMin (enemies s)
    /\ spawnMax (enemies (onFirstPoolCollisions s)) = spawnMax (enemies s).
Proof.
  destruct (onFirstPoolCollisions_spec s) as (pb & pe & lh & H & Hlh).
  rewrite H. exists lh. repeat split; try reflexivity. exact Hlh.
Qed.

Lemma onFirstCollision_obs (s : App) :
  exists lg,
    log (onFirstCollision s) = log s ++ lg
    /\ game_over_step (gameOver s) (gameOver (onFirstCollision s)) lg
    /\ enemies (onFirstCollision s) = enemies s.
Proof.
  destruct (onFirstCollision_spec s) as (go & pl & lg & H & Hlg).
  rewrite H. exists lg. repeat split; try reflexivity. exact Hlg.
Qed.

(** One frame in normal form: what it adds to the log, and what it does to
    the flag and to the bounds of the enemy interval. *)
Lemma tick_spec (E : Env) (dt : Q) (s : App) :
  exists lb le lh lg,
    log (tick E dt s)
    = log s ++ frame_calls (variant E) dt
                 (- getScreenY E (Player_update E dt (player s))) lb le lh lg
    /\ lb = (if Qle_bool (b_spawnCooldown (bullets s) - dt) 0 && negb (gameOver s)
             then [c_obtain OfBullets
                     (ex (Entity_update E dt (p_entity (player s))))
                     (ey (Entity_update E dt (p_entity (player s))))]
             else [])
    /\ (if Qle_bool (e_spawnCooldown (enemies s) - dt) 0
        then exists x y, le = [c_obtain OfEnemies x y]
        else le = [])
    /\ forallb is_hit_call lh = true
    /\ game_over_step (gameOver s) (gameOver (tick E dt s)) lg
    /\ spawnMin (enemies (tick E dt s)) = spawnMin (enemies s)
    /\ spawnMax (enemies (tick E dt s))
       = (if Qle_bool (e_spawnCooldown (enemies s) - dt) 0
          then spawnMax (ramp (enemies s)) else spawnMax (enemies s)).
Proof.
  unfold tick, frame_calls.
  remember (set_player (Player_update E dt (player s)) (call (c_player_update dt) s))
    as s1 eqn:H1.
  assert (F1 : log s1 = log s ++ [c_player_update dt]
               /\ gameOver s1 = gameOver s
               /\ player s1 = Player_update E dt (player s)
               /\ bullets s1 = bullets s /\ enemies s1 = enemies s)
    by (subst s1; repeat split; reflexivity).
  clear H1. destruct F1 as (L1 & G1 & P1 & B1 & N1).
  cbv zeta. destruct (variant E).
  - remember (Bullets_update E dt (call (c_bullets_update dt) s1)) as s2 eqn:H2.
    destruct (Bullets_update_obs E dt (call (c_bullets_update dt) s1))
      as (L2 & G2 & P2 & N2).
    rewrite <- H2 in L2, G2, P2, N2. clear H2. cbn in L2, G2, P2, N2.
    remember (Enemies_update E dt (call (c_enemies_update dt) s2)) as s3 eqn:H3.
    destruct (Enemies_update_obs E dt (call (c_enemies_update dt) s2))
      as (le & L3 & C3 & G3 & P3 & B3 & Mi3 & Ma3).
    rewrite <- H3 in L3, G3, P3, B3, Mi3, Ma3. clear H3.
    cbn in L3, C3, G3, P3, B3, Mi3, Ma3.
    match goal with |- context [onFirstPoolCollisions ?a] =>
      remember a as a4 eqn:H4;
      assert (F4 : log a4 = log s3 ++ [c_elementLayer_y (- getScreenY E (player s3));
                                       c_parallax_update 0 (- getScreenY E (player s3));
                                       c_onFirstPoolCollisions]
                   /\ gameOver a4 = gameOver s3 /\ player a4 = player s3
                   /\ enemies a4 = enemies s3)
        by (subst a4; cbn; rewrite <- !app_assoc; repeat split; reflexivity);
      clear H4; destruct F4 as (L4 & G4 & P4 & N4)
    end.
    remember (onFirstPoolCollisions a4) as s5 eqn:H5.
    destruct (onFirstPoolCollisions_obs a4) as (lh & L5 & C5 & G5 & P5 & Mi5 & Ma5).
    rewrite <- H5 in L5, G5, P5, Mi5, Ma5. clear H5.
    remember (onFirstCollision (call c_onFirstCollision s5)) as s6 eqn:H6.
    destruct (onFirstCollision_obs (call c_onFirstCollision s5)) as (lg & L6 & C6 & N6).
    rewrite <- H6 in L6, C6, N6. clear H6. cbn in L6, C6, N6.
    exists (if Qle_bool (b_spawnCooldown (bullets s) - dt) 0 && negb (gameOver s)
            then [c_obtain OfBullets
                    (ex (Entity_update E dt (p_entity (player s))))
                    (ey (Entity_update E dt (p_entity (player s))))]
            else []), le, lh, lg.
    cbn [log call gameOver enemies].
    rewrite L6, L5, L4, L3, L2, L1, P3, P2, P1, B1, G1.
    rewrite N6, Mi5, Ma5, N4, Mi3, Ma3, N2, N1.
    rewrite N2, N1 in C3. rewrite G5, G4, G3, G2, G1 in C6.
    rewrite <- !app_assoc.
    repeat split; try reflexivity; assumption.
  - remember (Bullets_update E dt (call (c_bullets_update dt)
                                     (call (c_parallax_update 0 0) s1))) as s2 eqn:H2.
    destruct (Bullets_update_obs E dt (call (c_bullets_update dt)
                                         (call (c_parallax_update 0 0) s1)))
      as (L2 & G2 & P2 & N2).
    rewrite <- H2 in L2, G2, P2, N2. clear H2. cbn in L2, G2, P2, N2.
    remember (Enemies_update E dt (call (c_enemies_update dt) s2)) as s3 eqn:H3.
    destruct (Enemies_update_obs E dt (call (c_enemies_update dt) s2))
      as (le & L3 & C3 & G3 & P3 & B3 & Mi3 & Ma3).
    rewrite <- H3 in L3, G3, P3, B3, Mi3, Ma3. clear H3.
    cbn in L3, C3, G3, P3, B3, Mi3, Ma3.
    remember (onFirstPoolCollisions (call c_onFirstPoolCollisions s3)) as s5 eqn:H5.
    destruct (onFirstPoolCollisions_obs (call c_onFirstPoolCollisions s3))
      as (lh & L5 & C5 & G5 & P5 & Mi5 & Ma5).
    rewrite <- H5 in L5, G5, P5, Mi5, Ma5. clear H5. cbn in L5, G5, P5, Mi5, Ma5.
    remember (onFirstCollision (call c_onFirstCollision s5)) as s6 eqn:H6.
    destruct (onFirstCollision_obs (call c_onFirstCollision s5)) as (lg & L6 & C6 & N6).
    rewrite <- H6 in L6, C6, N6. clear H6. cbn in L6, C6, N6.
    exists (if Qle_bool (b_spawnCooldown (bullets s) - dt) 0 && negb (gameOver s)
            then [c_obtain OfBullets
                    (ex (Entity_update E dt (p_entity (player s))))
                    (ey (Entity_update E dt (p_entity (player s))))]
            else []), le, lh, lg.
    cbn [log call gameOver enemies].
    rewrite L6, L5, L3, L2, L1, P1, B1, G1.
    rewrite N6, Mi5, Ma5, Mi3, Ma3, N2, N1.
    rewrite N2, N1 in C3. rewrite G5, G3, G2, G1 in C6.
    rewrite <- !app_assoc.
    repeat split; try reflexivity; assumption.
Qed.

(** ** Counting calls *)

Lemma skipn_own_length (l x : list Call) : skipn (length l) (l ++ x) = x.
Proof. induction l as [|c l IH]; [reflexivity | exact IH]. Qed.

Lemma firstn_own_length (l x : list Call) : firstn (length l) (l ++ x) = l.
Proof. induction l as [|c l IH]; [reflexivity | cbn; now rewrite IH]. Qed.

Lemma phases_app (l1 l2 : list Call) : phases (l1 ++ l2) = phases l1 ++ phases l2.
Proof.
  induction l1 as [|c l1 IH]; [reflexivity|].
  cbn. destruct (phase_of c); cbn; now rewrite IH.
Qed.

(** Calls of one kind are not counted as calls of a kind disjoint from it. *)
Lemma filter_disjoint (f g : Call -> bool) (l : list Call) :
  (forall c, g c = true -> f c = false) ->
  forallb g l = true -> filter f l = [].
Proof.
  intros Hfg. induction l as [|c l IH]; [reflexivity|].
  cbn. intro H. apply andb_true_iff in H. destruct H as [Hc Hl].
  rewrite (Hfg c Hc). exact (IH Hl).
Qed.

Lemma phases_hit_calls (l : list Call) :
  forallb is_hit_call l = true -> phases l = [].
Proof.
  induction l as [|c l IH]; [reflexivity|].
  cbn. intro H. apply andb_true_iff in H. destruct H as [Hc Hl].
  destruct c; try discriminate; cbn; exact (IH Hl).
Qed.

Lemma game_over_step_counts (g g' : bool) (l : list Call) :
  game_over_step g g' l ->
  (length (filter is_setTimeout l) + b2n g = b2n g')%nat
  /\ (length (filter is_player_onDeath l) + b2n g = b2n g')%nat
  /\ filter is_bullet_obtain l = []
  /\ filter is_enemy_obtain l = []
  /\ phases l = []
  /\ (g = true -> g' = true).
Proof.
  intros [[Hg Hl] | (Hg & Hg' & x & y & Hl)]; subst; cbn; repeat split; auto.
Qed.

(** The counts of a frame are the counts of its variable parts. *)
Lemma frame_calls_counts (v : Variant) (dt off : Q) (lb le lh lg : list Call)
      (f : Call -> bool) :
  (forall c, phase_of c <> None -> f c = false) ->
  length (filter f (frame_calls v dt off lb le lh lg))
  = (length (filter f lb) + length (filter f le)
     + length (filter f lh) + length (filter f lg))%nat.
Proof.
  intro Hf.
  assert (H1 : forall c l, phase_of c <> None ->
                           length (filter f (c :: l)) = length (filter f l)).
  { intros c l Hc. cbn. rewrite (Hf c Hc). reflexivity. }
  unfold frame_calls. destruct v; cbn [app].
  all: repeat first [ rewrite H1 by (cbn; discriminate) | rewrite count_app ].
  all: cbn [filter length]; lia.
Qed.

Lemma frame_calls_phases (v : Variant) (dt off : Q) (lb le lh lg : list Call) :
  phases lb = [] -> phases le = [] -> phases lh = [] -> phases lg = [] ->
  phases (frame_calls v dt off lb le lh lg) = code_frame_order v.
Proof.
  intros Hb He Hh Hg. unfold frame_calls.
  destruct v; rewrite !phases_app, Hb, He, Hh, Hg; reflexivity.
Qed.

Lemma enemy_obtain_counts (b : bool) (le : list Call) :
  (if b then exists x y, le = [c_obtain OfEnemies x y] else le = []) ->
  filter is_setTimeout le = []
  /\ filter is_player_onDeath le = []
  /\ filter is_bullet_obtain le = []
  /\ phases le = []
  /\ length (filter is_enemy_obtain le) = b2n b.
Proof.
  destruct b; [intros (x & y & ->) | intros ->]; repeat split; reflexivity.
Qed.

Lemma bullet_obtain_counts (b : bool) (x y : Q) :
  filter is_setTimeout (if b then [c_obtain OfBullets x y] else []) = []
  /\ filter is_player_onDeath (if b then [c_obtain OfBullets x y] else []) = []
  /\ filter is_enemy_obtain (if b then [c_obtain OfBullets x y] else []) = []
  /\ phases (if b then [c_obtain OfBullets x y] else []) = []
  /\ length (filter is_bullet_obtain (if b then [c_obtain OfBullets x y] else []))
     = b2n b.
Proof. destruct b; repeat split; reflexivity. Qed.

Lemma hit_call_counts (lh : list Call) :
  forallb is_hit_call lh = true ->
  filter is_setTimeout lh = []
  /\ filter is_player_onDeath lh = []
  /\ filter is_bullet_obtain lh = []
  /\ filter is_enemy_obtain lh = []
  /\ phases lh = [].
Proof.
  intro H. repeat split.
  1-4: apply (filter_disjoint _ is_hit_call); [|exact H];
       intros c Hc; destruct c; try discriminate; reflexivity.
  apply phases_hit_calls. exact H.
Qed.

(** What one frame does to the counts. *)
Lemma tick_counts (E : Env) (dt : Q) (s : App) :
  (scheduled (tick E dt s) + b2n (gameOver s)
   = scheduled s + b2n (gameOver (tick E dt s)))%nat
  /\ (hidden (tick E dt s) + b2n (gameOver s)
      = hidden s + b2n (gameOver (tick E dt s)))%nat
  /\ (gameOver s = true -> gameOver (tick E dt s) = true)
  /\ fired (tick E dt s)
     = (fired s + b2n (Qle_bool (b_spawnCooldown (bullets s) - dt) 0
                       && negb (gameOver s)))%nat
  /\ spawned (tick E dt s)
     = (spawned s + b2n (Qle_bool (e_spawnCooldown (enemies s) - dt) 0))%nat
  /\ firstn (length (log s)) (log (tick E dt s)) = log s
  /\ phases (added s (tick E dt s)) = code_frame_order (variant E).
Proof.
  destruct (tick_spec E dt s) as (lb & le & lh & lg & L & Hb & He & Hh & Hg & _).
  destruct (game_over_step_counts _ _ _ Hg) as (G1 & G2 & G3 & G4 & G5 & G6).
  destruct (enemy_obtain_counts _ _ He) as (E1 & E2 & E3 & E5 & E4).
  destruct (hit_call_counts _ Hh) as (H1 & H2 & H3 & H4 & H5).
  match type of Hb with _ = if ?b then [c_obtain _ ?x ?y] else [] =>
    destruct (bullet_obtain_counts b x y) as (B1 & B2 & B4 & B5 & B3) end.
  rewrite <- Hb in B1, B2, B3, B4, B5. clear Hb.
  unfold scheduled, hidden, fired, spawned, added. rewrite L.
  rewrite skipn_own_length, firstn_own_length, !count_app.
  rewrite !frame_calls_counts
    by (intros c Hc; destruct c; try reflexivity; exfalso; apply Hc; reflexivity).
  rewrite frame_calls_phases by assumption.
  rewrite B1, B2, B3, B4, E1, E2, E3, E4, H1, H2, H3, H4, G3, G4.
  cbn [length]. repeat split; try lia. exact G6.
Qed.

(** ** Sessions *)

Lemma onGameOver_obs (s : App) :
  exists lg,
    log (onGameOver s) = log s ++ lg
    /\ game_over_step (gameOver s) (gameOver (onGameOver s)) lg.
Proof.
  destruct (onGameOver_spec s) as (go & pl & lg & H & Hlg).
  rewrite H. exists lg. split; [reflexivity | exact Hlg].
Qed.

Lemma onGameOver_when_over (s : App) : gameOver s = true -> onGameOver s = s.
Proof. intro H. unfold onGameOver. rewrite H. reflexivity. Qed.

Lemma input_obs (E : Env) (s : App) (a : Action) :
  match a with a_tick _ | a_onGameOver | a_timer_reset => False | _ => True end ->
  log (step E s a) = log s /\ gameOver (step E s a) = gameOver s.
Proof.
  destruct a as [dt| |evt pt|evt pt|evt|]; cbn [step]; try contradiction; intros _.
  - unfold onInputStart. destruct (startEvt (inputLayer s)); split; reflexivity.
  - unfold onInputMove.
    destruct (startEvt (inputLayer s)), (startPt (inputLayer s));
      try (split; reflexivity).
    destruct (Nat.eqb _ _); split; reflexivity.
  - unfold onInputSelect.
    destruct (startEvt (inputLayer s)); try (split; reflexivity).
    destruct (Nat.eqb _ _); split; reflexivity.
Qed.

(** What one action of a session does to the counts. *)
Lemma step_counts (E : Env) (s : App) (a : Action) :
  is_reset a = false ->
  (scheduled (step E s a) + b2n (gameOver s)
   = scheduled s + b2n (gameOver (step E s a)))%nat
  /\ (hidden (step E s a) + b2n (gameOver s)
      = hidden s + b2n (gameOver (step E s a)))%nat
  /\ (gameOver s = true ->
      gameOver (step E s a) = true /\ fired (step E s a) = fired s).
Proof.
  intro Ha. destruct a as [dt| |evt pt|evt pt|evt|]; try discriminate.
  - cbn [step].
    destruct (tick_counts E dt s) as (T1 & T2 & T3 & T4 & _).
    split; [exact T1|]. split; [exact T2|].
    intro Hg. split; [exact (T3 Hg)|].
    rewrite T4, Hg, andb_false_r. cbn. lia.
  - cbn [step].
    destruct (onGameOver_obs s) as (lg & L & Hlg).
    destruct (game_over_step_counts _ _ _ Hlg) as (G1 & G2 & G3 & _ & _ & G6).
    unfold scheduled, hidden, fired. rewrite L, !count_app, G3.
    split; [lia|]. split; [lia|].
    intro Hg. split; [exact (G6 Hg) | cbn; lia].
  - destruct (input_obs E s (a_onInputStart evt pt) I) as [L G].
    unfold scheduled, hidden, fired. rewrite L, G.
    split; [lia|]. split; [lia|]. intro Hg. split; [exact Hg | reflexivity].
  - destruct (input_obs E s (a_onInputMove evt pt) I) as [L G].
    unfold scheduled, hidden, fired. rewrite L, G.
    split; [lia|]. split; [lia|]. intro Hg. split; [exact Hg | reflexivity].
  - destruct (input_obs E s (a_onInputSelect evt) I) as [L G].
    unfold scheduled, hidden, fired. rewrite L, G.
    split; [lia|]. split; [lia|]. intro Hg. split; [exact Hg | reflexivity].
Qed.

Lemma run_counts (E : Env) (acts : list Action) (s : App) :
  within_session acts = true ->
  (scheduled (run E acts s) + b2n (gameOver s)
   = scheduled s + b2n (gameOver (run E acts s)))%nat
  /\ (hidden (run E acts s) + b2n (gameOver s)
      = hidden s + b2n (gameOver (run E acts s)))%nat
  /\ (gameOver s = true ->
      gameOver (run E acts s) = true /\ fired (run E acts s) = fired s).
Proof.
  revert s. induction acts as [|a acts IH]; intros s Hw.
  - cbn. repeat split; auto.
  - cbn in Hw. apply andb_true_iff in Hw. destruct Hw as [Ha Hw].
    apply negb_true_iff in Ha.
    destruct (step_counts E s a Ha) as (S1 & S2 & S3).
    destruct (IH (step E s a) Hw) as (R1 & R2 & R3).
    change (run E (a :: acts) s) with (run E acts (step E s a)).
    split; [lia|]. split; [lia|].
    intro Hg. destruct (S3 Hg) as [Sg Sf]. destruct (R3 Sg) as [Rg Rf].
    split; [exact Rg | congruence].
Qed.

(** C6: the game-over handler is idempotent.  Invoked while [gameOver] is
    already true it leaves the whole state as it is: the player is not
    hidden or exploded again, the flag is not changed, no second reset is
    scheduled.  Within a session (any frames, input events and handler
    calls, before the scheduled reset fires) at most one reset is scheduled
    and the player is hidden at most once, and once [gameOver] is true it
    stays true: the flag goes from false to true at most once. *)
Theorem onGameOver_is_idempotent (E : Env) (s : App) (acts : list Action) :
  within_session acts = true ->
  (gameOver s = true -> onGameOver s = s)
  /\ gameOver (onGameOver s) = true
  /\ onGameOver (onGameOver s) = onGameOver s
  /\ (scheduled (run E acts s) <= S (scheduled s))%nat
  /\ (hidden (run E acts s) <= S (hidden s))%nat
  /\ (gameOver s = true ->
      gameOver (run E acts s) = true
      /\ scheduled (run E acts s) = scheduled s
      /\ hidden (run E acts s) = hidden s).
Proof.
  intro Hw.
  assert (Hover : gameOver (onGameOver s) = true)
    by (unfold onGameOver; destruct (gameOver s) eqn:Hg; [exact Hg | reflexivity]).
  destruct (run_counts E acts s Hw) as (R1 & R2 & R3).
  split; [apply onGameOver_when_over|].
  split; [exact Hover|].
  split; [apply onGameOver_when_over; exact Hover|].
  split; [destruct (gameOver s), (gameOver (run E acts s)); cbn in R1; lia|].
  split; [destruct (gameOver s), (gameOver (run E acts s)); cbn in R2; lia|].
  intro Hg. destruct (R3 Hg) as [Rg _]. rewrite Hg, Rg in R1, R2.
  split; [exact Rg|]. split; lia.
Qed.

Lemma onGameOver_is_idempotent_witness :
  (scheduled (run scrolling_env [a_onGameOver; a_tick 1; a_onGameOver] scrolling_app)
   <= S (scheduled scrolling_app))%nat.
Proof.
  assert (Hw : within_session [a_onGameOver; a_tick 1; a_onGameOver] = true)
    by reflexivity.
  destruct (onGameOver_is_idempotent scrolling_env scrolling_app _ Hw)
    as (_ & _ & _ & H & _).
  exact H.
Defined.

(** ** No bullets after game over *)

Lemma spawnBullet_when_over (E : Env) (s : App) :
  gameOver s = true -> spawnBullet E s = s.
Proof. intro H. unfold spawnBullet. rewrite H. reflexivity. Qed.

Lemma Bullets_update_pool_when_over (E : Env) (dt : Q) (s : App) :
  gameOver s = true ->
  active (b_pool (bullets (Bullets_update E dt s)))
  = update_all (Bullet_update E (player s) dt) (active (b_pool (bullets s))).
Proof.
  intro H. unfold Bullets_update. cbv zeta.
  cbn [bullets set_bullets set_b_spawnCooldown b_spawnCooldown b_pool].
  destruct (Qle_bool _ _).
  - rewrite spawnBullet_when_over by exact H. reflexivity.
  - reflexivity.
Qed.

(** C8: while [gameOver] is true no bullet is fired.  A call of
    [spawnBullet] leaves the state, and so the active set of the bullets
    pool, as it is; a frame of the pool obtains nothing (its active set is
    what the bullets' own updates leave of the old one); and over any run of
    the session, for every player position and every sequence of [dt], the
    flag stays true and the number of bullets fired does not change. *)
Theorem no_bullet_while_game_over (E : Env) (s : App) (acts : list Action) :
  gameOver s = true ->
  within_session acts = true ->
  spawnBullet E s = s
  /\ (forall dt : Q,
        fired (Bullets_update E dt s) = fired s
        /\ active (b_pool (bullets (Bullets_update E dt s)))
           = update_all (Bullet_update E (player s) dt) (active (b_pool (bullets s))))
  /\ gameOver (run E acts s) = true
  /\ fired (run E acts s) = fired s.
Proof.
  intros Hg Hw.
  split; [exact (spawnBullet_when_over E s Hg)|].
  split.
  - intro dt. split.
    + rewrite Bullets_update_fired, Hg, andb_false_r. lia.
    + exact (Bullets_update_pool_when_over E dt s Hg).
  - destruct (run_counts E acts s Hw) as (_ & _ & R). exact (R Hg).
Qed.

Lemma no_bullet_while_game_over_witness :
  fired (run tenth_env [a_tick (1 # 10); a_tick (1 # 10); a_onInputStart 0 (0, 0);
                        a_tick (1 # 10)]
             (onGameOver (sample_app tenth_env)))
  = fired (onGameOver (sample_app tenth_env)).
Proof.
  apply (no_bullet_while_game_over tenth_env (onGameOver (sample_app tenth_env))
           [a_tick (1 # 10); a_tick (1 # 10); a_onInputStart 0 (0, 0); a_tick (1 # 10)]);
    reflexivity.
Defined.

(** ** Enemies after game over *)

Lemma random_set_gameOver (b : bool) (s : App) :
  random (set_gameOver b s) = (fst (random s), set_gameOver b (snd (random s))).
Proof. unfold random. cbn [rolls set_gameOver]. destruct (rolls s); reflexivity. Qed.

(** [spawnEnemy] neither reads nor writes the flag. *)
Lemma spawnEnemy_set_gameOver (E : Env) (b : bool) (s : App) :
  spawnEnemy E (set_gameOver b s) = set_gameOver b (spawnEnemy E s).
Proof.
  unfold spawnEnemy. cbv zeta.
  change (set_enemies (ramp (enemies (set_gameOver b s))) (set_gameOver b s))
    with (set_gameOver b (set_enemies (ramp (enemies s)) s)).
  rewrite random_set_gameOver.
  destruct (random (set_enemies (ramp (enemies s)) s)) as [r1 s1]. cbn [fst snd].
  rewrite random_set_gameOver.
  destruct (random s1) as [r2 s2]. cbn [fst snd].
  reflexivity.
Qed.

(** [Enemies.update] neither reads nor writes the flag. *)
Lemma Enemies_update_set_gameOver (E : Env) (dt : Q) (b : bool) (s : App) :
  Enemies_update E dt (set_gameOver b s) = set_gameOver b (Enemies_update E dt s).
Proof.
  unfold Enemies_update. cbv zeta.
  change (set_enemies
            (set_e_spawnCooldown (e_spawnCooldown (enemies (set_gameOver b s)) - dt)
                                 (enemies (set_gameOver b s)))
            (set_gameOver b s))
    with (set_gameOver b
            (set_enemies
               (set_e_spawnCooldown (e_spawnCooldown (enemies s) - dt) (enemies s)) s)).
  set (s0 := set_enemies
               (set_e_spawnCooldown (e_spawnCooldown (enemies s) - dt) (enemies s)) s).
  change (enemies (set_gameOver b s0)) with (enemies s0).
  destruct (Qle_bool (e_spawnCooldown (enemies s0)) 0).
  - rewrite spawnEnemy_set_gameOver, random_set_gameOver.
    destruct (random (spawnEnemy E s0)) as [r s1]. cbn [fst snd]. reflexivity.
  - reflexivity.
Qed.

Lemma spawnEnemy_obtains (E : Env) (s : App) :
  (length (active (e_pool (enemies s))) < capacity (e_pool (enemies s)))%nat ->
  length (active (e_pool (enemies (spawnEnemy E s))))
  = S (length (active (e_pool (enemies s)))).
Proof.
  intro Hfree. destruct (spawnEnemy_spec E s) as (x & y & vb & t & H).
  rewrite H. cbn. unfold obtain.
  apply Nat.ltb_lt in Hfree. rewrite Hfree. cbn.
  rewrite length_app. cbn. lia.
Qed.

Lemma Enemies_update_elapsed (E : Env) (dt : Q) (s : App) :
  Qle_bool (e_spawnCooldown (enemies s) - dt) 0 = true ->
  exists x y vb cd t,
    spawnEnemy E (Enemies_count_down dt s)
    = mkApp (score s) (gameOver s) (elementLayer_y s) (layer_style s) (player s)
            (bullets s)
            (set_e_pool (obtain x y vb (e_pool (enemies s)))
                        (ramp (enemies (Enemies_count_down dt s))))
            (inputLayer s) (rolls (spawnEnemy E (Enemies_count_down dt s)))
            (log s ++ [c_obtain OfEnemies x y])
    /\ Enemies_update E dt s
       = mkApp (score s) (gameOver s) (elementLayer_y s) (layer_style s) (player s)
               (bullets s)
               (mkEnemies cd (spawnMin (enemies s)) (spawnMax (ramp (enemies s)))
                  (EntityPool_update (Enemy_update E (player s) dt)
                                     (obtain x y vb (e_pool (enemies s)))))
               (inputLayer s) t (log s ++ [c_obtain OfEnemies x y]).
Proof.
  intro Hle.
  destruct (spawnEnemy_spec E (Enemies_count_down dt s)) as (x & y & vb & t1 & Hs).
  unfold Enemies_update. cbv zeta. fold (Enemies_count_down dt s).
  change (e_spawnCooldown (enemies (Enemies_count_down dt s)))
    with (e_spawnCooldown (enemies s) - dt).
  rewrite Hle.
  destruct (random_spec (spawnEnemy E (Enemies_count_down dt s))) as (r & t & Hr).
  rewrite Hr. exists x, y, vb.
  rewrite Hs. unfold Enemies_count_down, ramp. cbn.
  destruct (Qltb _ _); cbn; do 2 eexists; split; reflexivity.
Qed.

(** C9: enemy spawning is not suppressed by game over.  With [gameOver]
    true, a frame of the enemies pool whose countdown elapses calls
    [spawnEnemy] (on the state with [dt] taken off the countdown): its log
    and its pool are those [spawnEnemy] leaves, the pool then being updated.
    [spawnEnemy] asks the pool for one enemy; the pool, if it has a free
    slot, activates it, and the active enemies after the frame are what
    their own updates leave of the old ones and the new one.  The ramp is
    applied to [spawnMax].  The whole frame is what it is with the flag
    false, the flag apart; and the same holds for the frame of the driver,
    which keeps the flag and fires no bullet. *)
Theorem enemies_spawn_while_game_over (E : Env) (dt : Q) (s : App) :
  gameOver s = true ->
  e_spawnCooldown (enemies s) - dt <= 0 ->
  log (Enemies_update E dt s) = log (spawnEnemy E (Enemies_count_down dt s))
  /\ e_pool (enemies (Enemies_update E dt s))
     = EntityPool_update (Enemy_update E (player s) dt)
         (e_pool (enemies (spawnEnemy E (Enemies_count_down dt s))))
  /\ (exists x y vb,
        added s (Enemies_update E dt s) = [c_obtain OfEnemies x y]
        /\ e_pool (enemies (spawnEnemy E (Enemies_count_down dt s)))
           = obtain x y vb (e_pool (enemies s))
        /\ active (e_pool (enemies (Enemies_update E dt s)))
           = update_all (Enemy_update E (player s) dt)
               (if Nat.ltb (length (active (e_pool (enemies s))))
                           (capacity (e_pool (enemies s)))
                then active (e_pool (enemies s)) ++ [mkEntity x y vb]
                else active (e_pool (enemies s))))
  /\ spawned (Enemies_update E dt s) = S (spawned s)
  /\ spawnMax (enemies (Enemies_update E dt s)) = spawnMax (ramp (enemies s))
  /\ (spawnMin (enemies s) < spawnMax (enemies s) ->
      spawnMax (enemies (Enemies_update E dt s)) = spawnMax (enemies s) - 1)
  /\ Enemies_update E dt s = set_gameOver true (Enemies_update E dt (set_gameOver false s))
  /\ enemies (Enemies_update E dt s)
     = enemies (Enemies_update E dt (set_gameOver false s))
  /\ ((length (active (e_pool (enemies s))) < capacity (e_pool (enemies s)))%nat ->
      length (active (e_pool (enemies (spawnEnemy E s))))
      = S (length (active (e_pool (enemies s)))))
  /\ spawned (tick E dt s) = S (spawned s)
  /\ spawnMax (enemies (tick E dt s)) = spawnMax (ramp (enemies s))
  /\ gameOver (tick E dt s) = true
  /\ fired (tick E dt s) = fired s.
Proof.
  intros Hg Hle. apply Qle_bool_iff in Hle.
  destruct (Enemies_update_elapsed E dt s Hle) as (x & y & vb & cd & t & Hs & Hu).
  destruct (tick_counts E dt s) as (_ & _ & Tg & Tf & Ts & _).
  destruct (tick_spec E dt s) as (_ & _ & _ & _ & _ & _ & _ & _ & _ & _ & TMa).
  rewrite Hle in Ts, TMa. rewrite Hg, andb_false_r in Tf.
  split; [rewrite Hu, Hs; reflexivity|].
  split; [rewrite Hu, Hs; reflexivity|].
  split.
  { exists x, y, vb.
    split; [unfold added; rewrite Hu; cbn [log]; apply skipn_own_length|].
    split; [rewrite Hs; reflexivity|].
    rewrite Hu. cbn [enemies e_pool EntityPool_update active]. unfold obtain.
    destruct (Nat.ltb _ _); reflexivity. }
  split; [unfold spawned; rewrite Hu; cbn [log]; rewrite count_app; cbn; lia|].
  split; [rewrite Hu; reflexivity|].
  split.
  { intro Hlt. rewrite Hu. cbn [enemies spawnMax]. unfold ramp.
    apply Qltb_lt in Hlt. rewrite Hlt. reflexivity. }
  split.
  { rewrite <- Enemies_update_set_gameOver.
    replace (set_gameOver true (set_gameOver false s)) with s; [reflexivity|].
    destruct s as [sc go ly st pl bu en il ro lg]. cbn in Hg. subst go. reflexivity. }
  split; [rewrite Enemies_update_set_gameOver; reflexivity|].
  split; [apply spawnEnemy_obtains|].
  split; [rewrite Ts; cbn; lia|].
  split; [exact TMa|].
  split; [exact (Tg Hg)|].
  rewrite Tf. cbn. lia.
Qed.

Lemma enemies_spawn_while_game_over_witness :
  spawned (Enemies_update scrolling_env 1 (onGameOver scrolling_app))
  = S (spawned (onGameOver scrolling_app)).
Proof.
  assert (Hg : gameOver (onGameOver scrolling_app) = true) by reflexivity.
  assert (Hle : e_spawnCooldown (enemies (onGameOver scrolling_app)) - 1 <= 0)
    by (vm_compute; discriminate).
  destruct (enemies_spawn_while_game_over scrolling_env 1 (onGameOver scrolling_app)
              Hg Hle) as (_ & _ & _ & H & _).
  exact H.
Defined.

(** ** The order of a frame *)

(** C3, as the code has it: within each frame the driver updates the
    player, then the bullets pool, then the enemies pool, and only then (in
    the scrolling file) recomputes the scroll offset from the player
    position and applies it to the element layer and to the background;
    then it resolves bullet-vs-enemy collisions, then enemy-vs-player
    collisions, then advances the visual effects.  The screen-fixed file
    updates the background (with offset 0) right after the player and has no
    scroll step. *)
Theorem tick_order (E : Env) (dt : Q) (s : App) :
  firstn (length (log s)) (log (tick E dt s)) = log s
  /\ phases (added s (tick E dt s)) = code_frame_order (variant E)
  /\ exists lb le lh lg,
       added s (tick E dt s)
       = frame_calls (variant E) dt
           (- getScreenY E (Player_update E dt (player s))) lb le lh lg
       /\ phases lb = [] /\ phases le = [] /\ phases lh = [] /\ phases lg = [].
Proof.
  destruct (tick_counts E dt s) as (_ & _ & _ & _ & _ & Hf & Hp).
  split; [exact Hf|]. split; [exact Hp|].
  destruct (tick_spec E dt s) as (lb & le & lh & lg & L & Hb & He & Hh & Hg & _).
  exists lb, le, lh, lg.
  split; [unfold added; rewrite L; apply skipn_own_length|].
  split; [subst lb; destruct (_ && _); reflexivity|].
  split; [exact (proj1 (proj2 (proj2 (proj2 (enemy_obtain_counts _ _ He)))))|].
  split; [apply phases_hit_calls; exact Hh|].
  destruct (game_over_step_counts _ _ _ Hg) as (_ & _ & _ & _ & G & _). exact G.
Qed.

(** C3 as stated fails for the scrolling file: the frame updates the two
    pools before it recomputes and applies the scroll offset. *)
Lemma tick_order_counterexample :
  phases (added scrolling_app (tick scrolling_env 1 scrolling_app))
  = [ph_player; ph_bullets; ph_enemies; ph_layer; ph_parallax;
     ph_bullet_enemy; ph_enemy_player; ph_effects]
  /\ phases (added scrolling_app (tick scrolling_env 1 scrolling_app))
     <> spec_frame_order (variant scrolling_env).
Proof. vm_compute. split; [reflexivity | discriminate]. Qed.

(** ** The ramp over a session *)












(** * Further properties *)

(** ** The player under input *)

(** X2: in the screen-fixed file a move clamps both coordinates, whatever
    the deltas: x into [0, 576] and y into [0, 1024], y being the clamp of
    anchor + dy * multiplier. *)
Theorem updateInput_fixed_stays_on_screen (E : Env) (dx dy : Q) (p : Player) :
  variant E = Fixed ->
  0 <= ex (p_entity (updateInput E dx dy p)) <= 576
  /\ 0 <= ey (p_entity (updateInput E dx dy p)) <= 1024
  /\ ey (p_entity (updateInput E dx dy p))
     == clamp (inputStartY p + dy * PLAYER_MOVE_MULT E) 0 1024.
Proof.
  intro Hv. unfold updateInput, BG_WIDTH, BG_HEIGHT. rewrite Hv.
  cbn [p_entity ex ey].
  assert (Hx := Qmax_Qmin_clamp (inputStartX p + dx * PLAYER_MOVE_MULT E) 576).
  assert (Hy := Qmax_Qmin_clamp (inputStartY p + dy * PLAYER_MOVE_MULT E) 1024).
  rewrite Hx, Hy by (vm_compute; discriminate).
  split; [apply clamp_bounds; vm_compute; discriminate|].
  split; [apply clamp_bounds; vm_compute; discriminate | reflexivity].
Qed.

Lemma updateInput_fixed_stays_on_screen_witness :
  0 <= ey (p_entity (updateInput (sample_env Fixed 1 1 2) 0 (-5000)
                       (mkPlayer (mkEntity 288 874 sample_bounds) true 288 874)))
  <= 1024.
Proof.
  apply (updateInput_fixed_stays_on_screen (sample_env Fixed 1 1 2) 0 (-5000)
           (mkPlayer (mkEntity 288 874 sample_bounds) true 288 874)).
  reflexivity.
Defined.

Lemma updateInput_scrolling_y (E : Env) (dx dy : Q) (p : Player) :
  variant E = Scrolling ->
  ey (p_entity (updateInput E dx dy p)) = ey (p_entity p).
Proof. intro Hv. unfold updateInput. rewrite Hv. reflexivity. Qed.

Lemma startInput_entity (E : Env) (p : Player) :
  p_entity (startInput E p) = p_entity p.
Proof. unfold startInput. destruct (variant E); reflexivity. Qed.

(** X3: in the scrolling file no gesture moves the player vertically: after
    [startInput] and any moves its y, and with it the scroll anchor
    [getScreenY], are what they were. *)
Theorem gesture_scrolling_keeps_y (E : Env) (ds : list (Q * Q)) (p : Player) :
  variant E = Scrolling ->
  ey (p_entity (moves E ds (startInput E p))) = ey (p_entity p)
  /\ getScreenY E (moves E ds (startInput E p)) = getScreenY E p.
Proof.
  intro Hv.
  assert (H : forall q, ey (p_entity (moves E ds q)) = ey (p_entity q)).
  { induction ds as [|d ds IH]; intro q; [reflexivity|].
    unfold moves in *. cbn [fold_left].
    rewrite IH. apply updateInput_scrolling_y. exact Hv. }
  assert (Hy : ey (p_entity (moves E ds (startInput E p))) = ey (p_entity p))
    by (rewrite H, startInput_entity; reflexivity).
  split; [exact Hy|]. unfold getScreenY. rewrite Hy. reflexivity.
Qed.

Lemma gesture_scrolling_keeps_y_witness :
  getScreenY scrolling_env
    (moves scrolling_env [(10, 300); (-40, -900)]
       (startInput scrolling_env (player scrolling_app)))
  = getScreenY scrolling_env (player scrolling_app).
Proof.
  apply (gesture_scrolling_keeps_y scrolling_env [(10, 300); (-40, -900)]
           (player scrolling_app)).
  reflexivity.
Defined.

(** X4: a gesture that has not moved leaves a player that is on the
    background where it is: after [startInput], a move with delta 0 gives
    the same x (and, in the screen-fixed file, the same y). *)
Theorem still_gesture_keeps_position (E : Env) (p : Player) :
  0 <= ex (p_entity p) <= BG_WIDTH E ->
  0 <= ey (p_entity p) <= BG_HEIGHT E ->
  ex (p_entity (updateInput E 0 0 (startInput E p))) == ex (p_entity p)
  /\ ey (p_entity (updateInput E 0 0 (startInput E p))) == ey (p_entity p).
Proof.
  intros Hx Hy. unfold updateInput, startInput.
  destruct (variant E); cbn [p_entity ex ey inputStartX inputStartY].
  - split; [|reflexivity].
    rewrite Q.min_r by lra. rewrite Q.max_r by lra. ring.
  - split.
    + rewrite Q.min_r by lra. rewrite Q.max_r by lra. ring.
    + rewrite Q.min_r by lra. rewrite Q.max_r by lra. ring.
Qed.

Lemma still_gesture_keeps_position_witness :
  ex (p_entity (updateInput scrolling_env 0 0
                  (startInput scrolling_env (player scrolling_app))))
  == ex (p_entity (player scrolling_app)).
Proof.
  apply (still_gesture_keeps_position scrolling_env (player scrolling_app));
    vm_compute; split; discriminate.
Defined.

(** ** The input view *)

(** X5: the first touch wins.  A start event that arrives while a gesture is
    being followed is ignored: the anchor, the start point and the gesture
    stay those of the first start. *)
Theorem onInputStart_first_touch_wins
        (E : Env) (e1 e2 : nat) (p1 p2 : Q * Q) (s : App) :
  onInputStart E e2 p2 (onInputStart E e1 p1 s) = onInputStart E e1 p1 s.
Proof.
  unfold onInputStart at 2 3.
  destruct (startEvt (inputLayer s)) as [e0|] eqn:Hs.
  - unfold onInputStart. rewrite Hs. reflexivity.
  - unfold onInputStart. reflexivity.
Qed.

Lemma not_followed (E : Env) (evt : nat) (pt : Q * Q) (s : App) :
  startEvt (inputLayer s) <> Some evt ->
  onInputMove E evt pt s = s /\ onInputSelect evt s = s.
Proof.
  intro Hne. unfold onInputMove, onInputSelect.
  destruct (startEvt (inputLayer s)) as [e0|]; [|split; reflexivity].
  destruct (Nat.eqb evt e0) eqn:He.
  - apply Nat.eqb_eq in He. subst. exfalso. apply Hne. reflexivity.
  - destruct (startPt (inputLayer s)); split; reflexivity.
Qed.

(** X6: a touch other than the one being followed neither moves the player
    nor ends the gesture; without a gesture, moves and releases do nothing.
    A second finger cannot take over or end the drag of the first. *)
Theorem foreign_touch_is_ignored (E : Env) (evt : nat) (pt : Q * Q) (s : App) :
  startEvt (inputLayer s) <> Some evt ->
  onInputMove E evt pt s = s /\ onInputSelect evt s = s.
Proof.
  intro Hne. unfold onInputMove, onInputSelect.
  destruct (startEvt (inputLayer s)) as [e0|]; [|split; reflexivity].
  destruct (Nat.eqb evt e0) eqn:He.
  - apply Nat.eqb_eq in He. subst. exfalso. apply Hne. reflexivity.
  - destruct (startPt (inputLayer s)); split; reflexivity.
Qed.

Lemma foreign_touch_is_ignored_witness :
  onInputMove scrolling_env 2 (50, 50) (onInputStart scrolling_env 1 (0, 0) scrolling_app)
  = onInputStart scrolling_env 1 (0, 0) scrolling_app.
Proof.
  apply (foreign_touch_is_ignored scrolling_env 2 (50, 50)
           (onInputStart scrolling_env 1 (0, 0) scrolling_app)).
  vm_compute. discriminate.
Defined.

Lemma onInputMove_followed (E : Env) (evt : nat) (p0 pt : Q * Q) (s : App) :
  inputLayer s = mkInputView (Some evt) (Some p0) ->
  onInputMove E evt pt s
  = set_player (updateInput E (fst (drag s p0 pt)) (snd (drag s p0 pt)) (player s)) s.
Proof.
  intro H. unfold onInputMove. rewrite H. cbn [startEvt startPt].
  rewrite Nat.eqb_refl. reflexivity.
Qed.

Lemma input_moves_followed (E : Env) (evt : nat) (p0 : Q * Q) (pts : list (Q * Q)) (s : App) :
  inputLayer s = mkInputView (Some evt) (Some p0) ->
  inputLayer (input_moves E evt pts s) = inputLayer s
  /\ layer_style (input_moves E evt pts s) = layer_style s
  /\ player (input_moves E evt pts s) = moves E (map (drag s p0) pts) (player s).
Proof.
  revert s. induction pts as [|pt pts IH]; intros s H.
  - repeat split; reflexivity.
  - unfold input_moves in *. cbn [fold_left map].
    rewrite (onInputMove_followed E evt p0 pt s H).
    destruct (IH (set_player (updateInput E (fst (drag s p0 pt)) (snd (drag s p0 pt))
                                (player s)) s) H) as (I1 & I2 & I3).
    rewrite I1, I2, I3. repeat split; reflexivity.
Qed.

(** X7: the player follows the finger.  After a start at [p0] that opens a
    gesture, and any number of moves of that touch, the player is where the
    last move alone puts it from the anchor taken at the start: at the
    clamp of anchor + (last point - p0) / scale * multiplier. *)
Theorem gesture_follows_finger
        (E : Env) (evt : nat) (p0 pt : Q * Q) (pts : list (Q * Q)) (s : App) :
  startEvt (inputLayer s) = None ->
  player (input_moves E evt (pts ++ [pt]) (onInputStart E evt p0 s))
  = updateInput E (fst (drag s p0 pt)) (snd (drag s p0 pt)) (startInput E (player s)).
Proof.
  intro Hs.
  assert (H1 : onInputStart E evt p0 s
               = set_inputLayer (mkInputView (Some evt) (Some p0))
                                (set_player (startInput E (player s)) s))
    by (unfold onInputStart; rewrite Hs; reflexivity).
  rewrite H1.
  set (t := set_inputLayer (mkInputView (Some evt) (Some p0))
                           (set_player (startInput E (player s)) s)).
  destruct (input_moves_followed E evt p0 (pts ++ [pt]) t eq_refl) as (_ & _ & H).
  rewrite H.
  change (player t) with (startInput E (player s)).
  change (drag t p0) with (drag s p0).
  rewrite map_app. cbn [map]. unfold moves. rewrite fold_left_app. cbn [fold_left].
  apply (updateInput_after_moves E _ _ _ (startInput E (player s))).
Qed.

Lemma gesture_follows_finger_witness :
  player (input_moves scrolling_env 1 ([(5, 5)] ++ [(30, 0)])
            (onInputStart scrolling_env 1 (10, 0) scrolling_app))
  = updateInput scrolling_env (fst (drag scrolling_app (10, 0) (30, 0)))
      (snd (drag scrolling_app (10, 0) (30, 0)))
      (startInput scrolling_env (player scrolling_app)).
Proof.
  apply (gesture_follows_finger scrolling_env 1 (10, 0) (30, 0) [(5, 5)] scrolling_app).
  reflexivity.
Defined.

(** X8: the release of the followed touch ends the gesture and leaves the
    player where the gesture put it; moves and releases of that touch that
    arrive afterwards are ignored, and the next start opens a new gesture. *)
Theorem release_ends_gesture
        (E : Env) (evt : nat) (p0 : Q * Q) (pts : list (Q * Q)) (s : App) :
  startEvt (inputLayer s) = None ->
  startEvt (inputLayer (onInputSelect evt (input_moves E evt pts (onInputStart E evt p0 s))))
  = None
  /\ player (onInputSelect evt (input_moves E evt pts (onInputStart E evt p0 s)))
     = player (input_moves E evt pts (onInputStart E evt p0 s))
  /\ (forall pt : Q * Q,
        onInputMove E evt pt
          (onInputSelect evt (input_moves E evt pts (onInputStart E evt p0 s)))
        = onInputSelect evt (input_moves E evt pts (onInputStart E evt p0 s)))
  /\ onInputSelect evt
       (onInputSelect evt (input_moves E evt pts (onInputStart E evt p0 s)))
     = onInputSelect evt (input_moves E evt pts (onInputStart E evt p0 s)).
Proof.
  intro Hs.
  assert (H1 : inputLayer (onInputStart E evt p0 s) = mkInputView (Some evt) (Some p0))
    by (unfold onInputStart; rewrite Hs; reflexivity).
  destruct (input_moves_followed E evt p0 pts _ H1) as (I1 & _ & _).
  rewrite H1 in I1.
  set (t := input_moves E evt pts (onInputStart E evt p0 s)) in *.
  assert (H2 : onInputSelect evt t = set_inputLayer (mkInputView None None) t).
  { unfold onInputSelect. rewrite I1. cbn [startEvt]. rewrite Nat.eqb_refl. reflexivity. }
  assert (H3 : startEvt (inputLayer (onInputSelect evt t)) = None)
    by (rewrite H2; reflexivity).
  split; [exact H3|]. split; [rewrite H2; reflexivity|].
  split.
  - intro pt. apply not_followed. rewrite H3. discriminate.
  - apply not_followed with (E := E) (pt := p0). rewrite H3. discriminate.
Qed.

Lemma release_ends_gesture_witness :
  startEvt (inputLayer (onInputSelect 1 (input_moves scrolling_env 1 [(30, 0)]
                                           (onInputStart scrolling_env 1 (10, 0)
                                              scrolling_app))))
  = None.
Proof.
  apply (release_ends_gesture scrolling_env 1 (10, 0) [(30, 0)] scrolling_app).
  reflexivity.
Defined.

Lemma reset_inputLayer (E : Env) (s : App) :
  inputLayer (reset E s) = mkInputView None None.
Proof. unfold reset. destruct (variant E); reflexivity. Qed.

(** X9: a reset cancels the gesture in progress.  After [reset], whatever
    the state before, moves and releases of any touch are ignored until a
    new start; the start then takes the reset position as its anchor. *)
Theorem reset_cancels_gesture (E : Env) (evt : nat) (pt : Q * Q) (s : App) :
  onInputMove E evt pt (reset E s) = reset E s
  /\ onInputSelect evt (reset E s) = reset E s
  /\ inputStartX (player (onInputStart E evt pt (reset E s)))
     = ex (p_entity (player (reset E s))).
Proof.
  assert (H := reset_inputLayer E s).
  assert (Hn : startEvt (inputLayer (reset E s)) <> Some evt)
    by (rewrite H; discriminate).
  destruct (not_followed E evt pt (reset E s) Hn) as [H1 H2].
  split; [exact H1|]. split; [exact H2|].
  unfold onInputStart. rewrite H. cbn [startEvt player set_inputLayer set_player].
  unfold startInput. destruct (variant E); reflexivity.
Qed.

Lemma input_fields (E : Env) (s : App) (a : Action) :
  is_input a = true ->
  log (step E s a) = log s
  /\ score (step E s a) = score s
  /\ gameOver (step E s a) = gameOver s
  /\ bullets (step E s a) = bullets s
  /\ enemies (step E s a) = enemies s
  /\ elementLayer_y (step E s a) = elementLayer_y s
  /\ rolls (step E s a) = rolls s
  /\ step E (set_gameOver true s) a = set_gameOver true (step E s a).
Proof.
  destruct a as [dt| |evt pt|evt pt|evt|]; try discriminate; intros _; cbn [step].
  - unfold onInputStart. cbn [inputLayer set_gameOver].
    destruct (startEvt (inputLayer s)); repeat split; reflexivity.
  - unfold onInputMove. cbn [inputLayer set_gameOver].
    destruct (startEvt (inputLayer s)), (startPt (inputLayer s));
      try (repeat split; reflexivity).
    destruct (Nat.eqb _ _); repeat split; reflexivity.
  - unfold onInputSelect. cbn [inputLayer set_gameOver].
    destruct (startEvt (inputLayer s)); try (repeat split; reflexivity).
    destruct (Nat.eqb _ _); repeat split; reflexivity.
Qed.

(** X10: the input events touch the player and the input view only: they
    fire no bullet, spawn no enemy, call no collaborator, and leave the
    score, the game-over flag, the pools, the scroll offset and the random
    tape as they are; game over does not switch them off. *)
Theorem input_touches_player_only (E : Env) (s : App) (a : Action) :
  is_input a = true ->
  log (step E s a) = log s
  /\ score (step E s a) = score s
  /\ gameOver (step E s a) = gameOver s
  /\ bullets (step E s a) = bullets s
  /\ enemies (step E s a) = enemies s
  /\ elementLayer_y (step E s a) = elementLayer_y s
  /\ rolls (step E s a) = rolls s
  /\ step E (set_gameOver true s) a = set_gameOver true (step E s a).
Proof.
  destruct a as [dt| |evt pt|evt pt|evt|]; try discriminate; intros _; cbn [step].
  - unfold onInputStart. cbn [inputLayer set_gameOver].
    destruct (startEvt (inputLayer s)); repeat split; reflexivity.
  - unfold onInputMove. cbn [inputLayer set_gameOver].
    destruct (startEvt (inputLayer s)), (startPt (inputLayer s));
      try (repeat split; reflexivity).
    destruct (Nat.eqb _ _); repeat split; reflexivity.
  - unfold onInputSelect. cbn [inputLayer set_gameOver].
    destruct (startEvt (inputLayer s)); try (repeat split; reflexivity).
    destruct (Nat.eqb _ _); repeat split; reflexivity.
Qed.

Lemma input_touches_player_only_witness :
  log (step scrolling_env (onGameOver scrolling_app) (a_onInputStart 1 (0, 0)))
  = log (onGameOver scrolling_app).
Proof.
  apply (input_touches_player_only scrolling_env (onGameOver scrolling_app)
           (a_onInputStart 1 (0, 0))).
  reflexivity.
Defined.

(** ** What a frame leaves alone *)

Lemma Bullets_update_untouched (E : Env) (dt : Q) (s : App) :
  untouched s (Bullets_update E dt s).
Proof.
  destruct (Bullets_update_spec E dt s) as (pl & H). rewrite H.
  unfold untouched, same_body. cbn. repeat split; reflexivity.
Qed.

Lemma Enemies_update_untouched (E : Env) (dt : Q) (s : App) :
  untouched s (Enemies_update E dt s).
Proof.
  destruct (Enemies_update_spec E dt s) as (cd & pl & t & le & H & _). rewrite H.
  unfold untouched, same_body. cbn. repeat split; reflexivity.
Qed.

Lemma onFirstPoolCollisions_untouched (s : App) :
  untouched s (onFirstPoolCollisions s).
Proof.
  destruct (onFirstPoolCollisions_spec s) as (pb & pe & lh & H & _). rewrite H.
  unfold untouched, same_body. cbn. repeat split; reflexivity.
Qed.

Lemma onGameOver_untouched (s : App) : untouched s (onGameOver s).
Proof.
  unfold onGameOver. destruct (gameOver s); unfold untouched, same_body; cbn;
    repeat split; reflexivity.
Qed.

Lemma onFirstCollision_untouched (s : App) : untouched s (onFirstCollision s).
Proof.
  unfold onFirstCollision. destruct (first_collision _ _ _).
  - apply onGameOver_untouched.
  - unfold untouched, same_body. repeat split; reflexivity.
Qed.

(** One frame, field by field. *)
Lemma tick_fields (E : Env) (dt : Q) (s : App) :
  score (tick E dt s) = score s
  /\ layer_style (tick E dt s) = layer_style s
  /\ inputLayer (tick E dt s) = inputLayer s
  /\ p_entity (player (tick E dt s)) = Entity_update E dt (p_entity (player s))
  /\ inputStartX (player (tick E dt s)) = inputStartX (player s)
  /\ inputStartY (player (tick E dt s)) = inputStartY (player s)
  /\ elementLayer_y (tick E dt s)
     = match variant E with
       | Scrolling => - (ey (Entity_update E dt (p_entity (player s))) - OFF_Y E)
       | Fixed => elementLayer_y s
       end.
Proof.
  unfold tick.
  remember (set_player (Player_update E dt (player s)) (call (c_player_update dt) s))
    as s1 eqn:H1.
  assert (F1 : score s1 = score s /\ elementLayer_y s1 = elementLayer_y s
               /\ layer_style s1 = layer_style s /\ inputLayer s1 = inputLayer s
               /\ p_entity (player s1) = Entity_update E dt (p_entity (player s))
               /\ inputStartX (player s1) = inputStartX (player s)
               /\ inputStartY (player s1) = inputStartY (player s))
    by (subst s1; repeat split; reflexivity).
  clear H1. destruct F1 as (Sc1 & Ly1 & St1 & In1 & Pe1 & Ax1 & Ay1).
  cbv zeta. destruct (variant E).
  - remember (Bullets_update E dt (call (c_bullets_update dt) s1)) as s2 eqn:H2.
    assert (U2 := Bullets_update_untouched E dt (call (c_bullets_update dt) s1)).
    rewrite <- H2 in U2. clear H2.
    destruct U2 as (Sc2 & Ly2 & St2 & In2 & Pe2 & Ax2 & Ay2).
    cbn in Sc2, Ly2, St2, In2, Pe2, Ax2, Ay2.
    remember (Enemies_update E dt (call (c_enemies_update dt) s2)) as s3 eqn:H3.
    assert (U3 := Enemies_update_untouched E dt (call (c_enemies_update dt) s2)).
    rewrite <- H3 in U3. clear H3.
    destruct U3 as (Sc3 & Ly3 & St3 & In3 & Pe3 & Ax3 & Ay3).
    cbn in Sc3, Ly3, St3, In3, Pe3, Ax3, Ay3.
    match goal with |- context [onFirstPoolCollisions ?a] =>
      remember a as a4 eqn:H4;
      assert (F4 : score a4 = score s3
                   /\ elementLayer_y a4 = - (ey (p_entity (player s3)) - OFF_Y E)
                   /\ layer_style a4 = layer_style s3 /\ inputLayer a4 = inputLayer s3
                   /\ player a4 = player s3)
        by (subst a4; repeat split; reflexivity);
      clear H4; destruct F4 as (Sc4 & Ly4 & St4 & In4 & Pl4)
    end.
    remember (onFirstPoolCollisions a4) as s5 eqn:H5.
    assert (U5 := onFirstPoolCollisions_untouched a4). rewrite <- H5 in U5. clear H5.
    destruct U5 as (Sc5 & Ly5 & St5 & In5 & Pe5 & Ax5 & Ay5).
    rewrite Pl4 in Pe5, Ax5, Ay5.
    remember (onFirstCollision (call c_onFirstCollision s5)) as s6 eqn:H6.
    assert (U6 := onFirstCollision_untouched (call c_onFirstCollision s5)).
    rewrite <- H6 in U6. clear H6.
    destruct U6 as (Sc6 & Ly6 & St6 & In6 & Pe6 & Ax6 & Ay6).
    cbn in Sc6, Ly6, St6, In6, Pe6, Ax6, Ay6.
    cbn [score layer_style inputLayer player elementLayer_y call].
    repeat split; congruence.
  - remember (Bullets_update E dt (call (c_bullets_update dt)
                                     (call (c_parallax_update 0 0) s1))) as s2 eqn:H2.
    assert (U2 := Bullets_update_untouched E dt
                    (call (c_bullets_update dt) (call (c_parallax_update 0 0) s1))).
    rewrite <- H2 in U2. clear H2.
    destruct U2 as (Sc2 & Ly2 & St2 & In2 & Pe2 & Ax2 & Ay2).
    cbn in Sc2, Ly2, St2, In2, Pe2, Ax2, Ay2.
    remember (Enemies_update E dt (call (c_enemies_update dt) s2)) as s3 eqn:H3.
    assert (U3 := Enemies_update_untouched E dt (call (c_enemies_update dt) s2)).
    rewrite <- H3 in U3. clear H3.
    destruct U3 as (Sc3 & Ly3 & St3 & In3 & Pe3 & Ax3 & Ay3).
    cbn in Sc3, Ly3, St3, In3, Pe3, Ax3, Ay3.
    remember (onFirstPoolCollisions (call c_onFirstPoolCollisions s3)) as s5 eqn:H5.
    assert (U5 := onFirstPoolCollisions_untouched (call c_onFirstPoolCollisions s3)).
    rewrite <- H5 in U5. clear H5.
    destruct U5 as (Sc5 & Ly5 & St5 & In5 & Pe5 & Ax5 & Ay5).
    cbn in Sc5, Ly5, St5, In5, Pe5, Ax5, Ay5.
    remember (onFirstCollision (call c_onFirstCollision s5)) as s6 eqn:H6.
    assert (U6 := onFirstCollision_untouched (call c_onFirstCollision s5)).
    rewrite <- H6 in U6. clear H6.
    destruct U6 as (Sc6 & Ly6 & St6 & In6 & Pe6 & Ax6 & Ay6).
    cbn in Sc6, Ly6, St6, In6, Pe6, Ax6, Ay6.
    cbn [score layer_style inputLayer player elementLayer_y call].
    repeat split; congruence.
Qed.

(** ** The score and the scroll offset over a run *)

Lemma reset_score (E : Env) (s : App) : score (reset E s) = 0%Z.
Proof. unfold reset. destruct (variant E); reflexivity. Qed.

Lemma step_score (E : Env) (s : App) (a : Action) :
  is_reset a = false -> score (step E s a) = score s.
Proof.
  intro Ha. destruct a as [dt| |evt pt|evt pt|evt|]; try discriminate.
  - exact (proj1 (tick_fields E dt s)).
  - exact (proj1 (onGameOver_untouched s)).
  - exact (proj1 (proj2 (input_fields E s (a_onInputStart evt pt) eq_refl))).
  - exact (proj1 (proj2 (input_fields E s (a_onInputMove evt pt) eq_refl))).
  - exact (proj1 (proj2 (input_fields E s (a_onInputSelect evt) eq_refl))).
Qed.

(** X11: nothing in the two files ever adds to the score.  No frame, hit,
    game over or input event changes it, and after a reset it is 0 for the
    rest of the run, whatever happens (hits and further resets included). *)
Theorem score_stays_zero (E : Env) (s t : App) (a : Action) (acts : list Action) :
  is_reset a = false ->
  score (step E t a) = score t
  /\ score (run E acts (reset E s)) = 0%Z.
Proof.
  intro Ha. split; [exact (step_score E t a Ha)|].
  assert (H : forall u, score u = 0%Z -> score (run E acts u) = 0%Z).
  { induction acts as [|b acts IH]; intros u Hu; [exact Hu|].
    change (run E (b :: acts) u) with (run E acts (step E u b)).
    apply IH. destruct (is_reset b) eqn:Hb.
    - destruct b; try discriminate. apply reset_score.
    - rewrite (step_score E u b Hb). exact Hu. }
  apply H. apply reset_score.
Qed.

Lemma score_stays_zero_witness :
  score (run hundredth_env [a_tick 1; a_tick 1; a_onGameOver; a_timer_reset; a_tick 1]
             (reset hundredth_env blank_app))
  = 0%Z.
Proof.
  apply (score_stays_zero hundredth_env blank_app blank_app (a_tick 1)
           [a_tick 1; a_tick 1; a_onGameOver; a_timer_reset; a_tick 1]).
  reflexivity.
Defined.

Lemma reset_follows (E : Env) (s : App) :
  variant E = Scrolling -> layer_follows_player E (reset E s).
Proof.
  intro Hv. unfold layer_follows_player, reset, Player_reset, getScreenY.
  rewrite Hv. cbn. unfold OFF_Y. ring.
Qed.

Lemma step_follows (E : Env) (s : App) (a : Action) :
  variant E = Scrolling ->
  layer_follows_player E s -> layer_follows_player E (step E s a).
Proof.
  intros Hv Hs. unfold layer_follows_player, getScreenY in *.
  destruct a as [dt| |evt pt|evt pt|evt|]; cbn [step].
  - destruct (tick_fields E dt s) as (_ & _ & _ & Pe & _ & _ & Ly).
    rewrite Hv in Ly. rewrite Ly, Pe. reflexivity.
  - destruct (onGameOver_untouched s) as (_ & Ly & _ & _ & Pe & _).
    rewrite Ly, Pe. exact Hs.
  - unfold onInputStart. destruct (startEvt (inputLayer s)); [exact Hs|].
    cbn [elementLayer_y player set_inputLayer set_player].
    rewrite startInput_entity. exact Hs.
  - unfold onInputMove.
    destruct (startEvt (inputLayer s)), (startPt (inputLayer s)); try exact Hs.
    destruct (Nat.eqb _ _); [|exact Hs].
    cbn [elementLayer_y player set_player].
    rewrite updateInput_scrolling_y by exact Hv. exact Hs.
  - unfold onInputSelect. destruct (startEvt (inputLayer s)); [|exact Hs].
    destruct (Nat.eqb _ _); exact Hs.
  - apply (reset_follows E s Hv).
Qed.

(** X12: in the scrolling file the element layer follows the player.  After
    a reset and after every later action of the run (frames, input events,
    game over, further resets) the layer's y is the opposite of the player's
    scroll anchor [getScreenY()]; after a frame it is the one computed from
    the position the player has at the end of that frame. *)
Theorem layer_follows_player_always (E : Env) (s : App) (acts : list Action) (dt : Q) :
  variant E = Scrolling ->
  layer_follows_player E (run E acts (reset E s))
  /\ elementLayer_y (tick E dt s) = - getScreenY E (player (tick E dt s)).
Proof.
  intro Hv. split.
  - assert (H : forall u, layer_follows_player E u ->
                          layer_follows_player E (run E acts u)).
    { induction acts as [|b acts IH]; intros u Hu; [exact Hu|].
      change (run E (b :: acts) u) with (run E acts (step E u b)).
      apply IH. apply step_follows; assumption. }
    apply H. apply reset_follows. exact Hv.
  - destruct (tick_fields E dt s) as (_ & _ & _ & Pe & _ & _ & Ly).
    rewrite Hv in Ly. unfold getScreenY. rewrite Ly, Pe. reflexivity.
Qed.

Lemma layer_follows_player_always_witness :
  layer_follows_player scrolling_env
    (run scrolling_env [a_tick 1; a_onInputStart 1 (0, 0); a_onInputMove 1 (40, 90);
                        a_tick 1]
         (reset scrolling_env blank_app)).
Proof.
  apply (layer_follows_player_always scrolling_env blank_app
           [a_tick 1; a_onInputStart 1 (0, 0); a_onInputMove 1 (40, 90); a_tick 1] 1).
  reflexivity.
Defined.

(** X13: frames do not disturb a drag.  A frame keeps the gesture, its start
    point and the player's anchor, so the x a move of the followed touch
    gives is the same whether or not a frame ran before it. *)
Theorem frame_keeps_drag (E : Env) (dt : Q) (evt : nat) (p0 pt : Q * Q) (s : App) :
  inputLayer s = mkInputView (Some evt) (Some p0) ->
  inputLayer (tick E dt s) = inputLayer s
  /\ inputStartX (player (tick E dt s)) = inputStartX (player s)
  /\ inputStartY (player (tick E dt s)) = inputStartY (player s)
  /\ ex (p_entity (player (onInputMove E evt pt (tick E dt s))))
     = ex (p_entity (player (onInputMove E evt pt s))).
Proof.
  intro Hi.
  destruct (tick_fields E dt s) as (_ & St & In & _ & Ax & Ay & _).
  split; [exact In|]. split; [exact Ax|]. split; [exact Ay|].
  rewrite (onInputMove_followed E evt p0 pt s Hi).
  rewrite (onInputMove_followed E evt p0 pt (tick E dt s)) by (rewrite In; exact Hi).
  cbn [player set_player]. rewrite !updateInput_x.
  unfold drag. rewrite St, Ax. reflexivity.
Qed.

Lemma frame_keeps_drag_witness :
  ex (p_entity (player (onInputMove scrolling_env 1 (40, 0)
                          (tick scrolling_env 1
                             (onInputStart scrolling_env 1 (0, 0) scrolling_app)))))
  = ex (p_entity (player (onInputMove scrolling_env 1 (40, 0)
                            (onInputStart scrolling_env 1 (0, 0) scrolling_app)))).
Proof.
  apply (frame_keeps_drag scrolling_env 1 1 (0, 0) (40, 0)
           (onInputStart scrolling_env 1 (0, 0) scrolling_app)).
  reflexivity.
Defined.

(** ** Where and when bullets are fired *)

(** X14: a bullet is fired from where the player is after its own update in
    the same frame.  In a frame with the game not over and the countdown
    elapsed, the bullets pool is asked for exactly one bullet, at the
    position the inherited update has just given the player. *)
Theorem bullet_leaves_from_updated_player (E : Env) (dt : Q) (s : App) :
  gameOver s = false ->
  b_spawnCooldown (bullets s) - dt <= 0 ->
  fired (tick E dt s) = S (fired s)
  /\ In (c_obtain OfBullets (ex (Entity_update E dt (p_entity (player s))))
                            (ey (Entity_update E dt (p_entity (player s)))))
        (added s (tick E dt s))
  /\ p_entity (player (tick E dt s)) = Entity_update E dt (p_entity (player s)).
Proof.
  intros Hg Hle. apply Qle_bool_iff in Hle.
  destruct (tick_counts E dt s) as (_ & _ & _ & Tf & _).
  destruct (tick_spec E dt s) as (lb & le & lh & lg & L & Hb & _).
  destruct (tick_fields E dt s) as (_ & _ & _ & Pe & _).
  rewrite Hle, Hg in Tf, Hb. cbn [andb negb b2n] in Tf, Hb.
  split; [rewrite Tf; lia|]. split; [|exact Pe].
  unfold added. rewrite L, skipn_own_length. subst lb.
  unfold frame_calls. destruct (variant E); cbn [app In]; auto 6.
Qed.

Lemma bullet_leaves_from_updated_player_witness :
  fired (tick tenth_env (1 # 10) (sample_app tenth_env))
  = S (fired (sample_app tenth_env)).
Proof.
  assert (Hg : gameOver (sample_app tenth_env) = false) by reflexivity.
  assert (Hle : b_spawnCooldown (bullets (sample_app tenth_env)) - (1 # 10) <= 0)
    by (vm_compute; discriminate).
  exact (proj1 (bullet_leaves_from_updated_player tenth_env (1 # 10)
                  (sample_app tenth_env) Hg Hle)).
Defined.

(** X17: the rate of fire is capped at one bullet per frame.  With frames at
    least as long as the cooldown, and a countdown of at most one cooldown,
    every frame fires exactly one bullet, however long it is. *)
Theorem one_bullet_per_long_frame (E : Env) (dt : Q) (n : nat) (s : App) :
  gameOver s = false ->
  SPAWN_COOLDOWN E <= dt ->
  b_spawnCooldown (bullets s) <= SPAWN_COOLDOWN E ->
  fired (Bullets_frames E dt n s) = (fired s + n)%nat
  /\ b_spawnCooldown (bullets (Bullets_frames E dt n s)) <= SPAWN_COOLDOWN E.
Proof.
  intros Hg Hdt Hcd. induction n as [|n [IHf IHc]].
  - split; [cbn; lia | exact Hcd].
  - rewrite Bullets_frames_S, Bullets_update_fired, Bullets_update_cooldown.
    rewrite Bullets_frames_gameOver, Hg, IHf.
    assert (Hle : Qle_bool (b_spawnCooldown (bullets (Bullets_frames E dt n s)) - dt) 0
                  = true) by (apply Qle_bool_iff; lra).
    rewrite Hle. cbn. split; [lia | lra].
Qed.

Lemma one_bullet_per_long_frame_witness :
  fired (Bullets_frames hundredth_env (1 # 30) 30 (sample_app hundredth_env))
  = (fired (sample_app hundredth_env) + 30)%nat.
Proof.
  assert (Hg : gameOver (sample_app hundredth_env) = false) by reflexivity.
  assert (Hdt : SPAWN_COOLDOWN hundredth_env <= 1 # 30) by (vm_compute; discriminate).
  assert (Hcd : b_spawnCooldown (bullets (sample_app hundredth_env))
                <= SPAWN_COOLDOWN hundredth_env) by (vm_compute; discriminate).
  exact (proj1 (one_bullet_per_long_frame hundredth_env (1 # 30) 30
                  (sample_app hundredth_env) Hg Hdt Hcd)).
Defined.

(** ** Enemies leave at the bottom *)

Lemma Enemy_update_cases (E : Env) (p : Player) (dt : Q) (e : Entity) :
  Enemy_update E p dt e
  = if Qltb (viewport_top E p + BG_HEIGHT E) (top_edge (Entity_update E dt e))
    then None else Some (Entity_update E dt e).
Proof.
  unfold Enemy_update, viewport_top, top_edge.
  destruct (variant E); [reflexivity|].
  destruct (Qltb (BG_HEIGHT E) _) eqn:H1;
    destruct (Qltb (0 + BG_HEIGHT E) _) eqn:H2; try reflexivity; exfalso.
  - apply Qltb_lt in H1. apply Qltb_ge in H2. lra.
  - apply Qltb_ge in H1. apply Qltb_lt in H2. lra.
Qed.

(** X18: an enemy is released during [Enemy.update] exactly when its top
    edge (position.y + viewBounds.y), after the inherited update, is below
    the bottom of the viewport (the viewport top plus BG_HEIGHT); otherwise
    it stays active as updated.  However far above the viewport it is, it
    is kept. *)
Theorem Enemy_update_releases_below_viewport
        (E : Env) (p : Player) (dt : Q) (e : Entity) :
  (Enemy_update E p dt e = None
   <-> viewport_top E p + BG_HEIGHT E < top_edge (Entity_update E dt e))
  /\ (Enemy_update E p dt e = Some (Entity_update E dt e)
      <-> top_edge (Entity_update E dt e) <= viewport_top E p + BG_HEIGHT E).
Proof.
  rewrite Enemy_update_cases.
  destruct (Qltb _ _) eqn:Hlt.
  - apply Qltb_lt in Hlt. repeat split; try easy.
    intro Hle. exfalso. apply (Qlt_not_le _ _ Hlt Hle).
  - apply Qltb_ge in Hlt. repeat split; try easy.
    intro H. exfalso. apply (Qlt_not_le _ _ H Hlt).
Qed.

(** ** The first frame of a session *)

Lemma reset_counters (E : Env) (s : App) :
  gameOver (reset E s) = false
  /\ b_spawnCooldown (bullets (reset E s)) = SPAWN_COOLDOWN E
  /\ e_spawnCooldown (enemies (reset E s)) = 0.
Proof. unfold reset. destruct (variant E); repeat split; reflexivity. Qed.

(** X20: a session opens with an enemy, not with a bullet.  [Enemies.reset]
    leaves the enemy countdown at 0 and [Bullets.reset] the bullet countdown
    at one cooldown, so the first frame after a reset, if shorter than the
    bullet cooldown, spawns an enemy (and already applies the ramp to
    [spawnMax]) and fires no bullet. *)
Theorem first_frame_spawns_enemy (E : Env) (dt : Q) (s : App) :
  0 <= dt ->
  dt < SPAWN_COOLDOWN E ->
  spawned (tick E dt (reset E s)) = S (spawned (reset E s))
  /\ fired (tick E dt (reset E s)) = fired (reset E s)
  /\ spawnMax (enemies (tick E dt (reset E s))) = spawnMax (ramp (enemies (reset E s)))
  /\ b_spawnCooldown (bullets (reset E s)) - dt > 0.
Proof.
  intros H0 Hdt.
  destruct (reset_counters E s) as (Hg & Hb & He).
  destruct (tick_counts E dt (reset E s)) as (_ & _ & _ & Tf & Ts & _).
  destruct (tick_spec E dt (reset E s)) as (_ & _ & _ & _ & _ & _ & _ & _ & _ & _ & Ma).
  assert (Hs : Qle_bool (e_spawnCooldown (enemies (reset E s)) - dt) 0 = true)
    by (rewrite He; apply Qle_bool_iff; lra).
  assert (Hf : Qle_bool (b_spawnCooldown (bullets (reset E s)) - dt) 0 = false)
    by (rewrite Hb; apply Qle_bool_gt; lra).
  rewrite Hs in Ts, Ma. rewrite Hf in Tf. cbn [andb b2n] in Tf, Ts.
  split; [lia|]. split; [lia|]. split; [exact Ma|].
  rewrite Hb. lra.
Qed.

Lemma first_frame_spawns_enemy_witness :
  spawned (tick tenth_env (1 # 60) (reset tenth_env blank_app))
  = S (spawned (reset tenth_env blank_app)).
Proof.
  assert (H0 : 0 <= 1 # 60) by (vm_compute; discriminate).
  assert (Hdt : 1 # 60 < SPAWN_COOLDOWN tenth_env) by reflexivity.
  exact (proj1 (first_frame_spawns_enemy tenth_env (1 # 60) blank_app H0 Hdt)).
Defined.

(** ** Where the player starts *)

(** X21: in the screen-fixed file the game is always laid out upright and
    the player starts centred.  [initUI] passes [576 > 1024], that is false,
    to [setScreenDimensions], so on every device the view is 576 wide; and
    [Player.reset], placing the player at half the width of its superview
    (which [initUI] makes as wide and as high as the root view), puts it at
    x = 288, 150 above the lower edge of the view. *)
Theorem fixed_player_starts_centred (E : Env) (ds : Screen) (superview : ViewStyle) (p : Player) :
  variant E = Fixed ->
  vs_width superview = vs_width (setScreenDimensions E ds (initUI_horz E)) ->
  vs_height superview = vs_height (setScreenDimensions E ds (initUI_horz E)) ->
  initUI_horz E = false
  /\ vs_width (setScreenDimensions E ds (initUI_horz E)) = 576
  /\ ex (p_entity (Player_reset E superview p)) == 288
  /\ ey (p_entity (Player_reset E superview p))
     == vs_height (setScreenDimensions E ds (initUI_horz E)) - 150
  /\ 0 <= ex (p_entity (Player_reset E superview p)) <= BG_WIDTH E.
Proof.
  intros Hv Hw Hh.
  assert (Hz : initUI_horz E = false)
    by (unfold initUI_horz, BG_WIDTH, BG_HEIGHT; rewrite Hv; reflexivity).
  assert (W : vs_width (setScreenDimensions E ds (initUI_horz E)) = 576)
    by (rewrite Hz; unfold setScreenDimensions, BG_WIDTH; rewrite Hv; reflexivity).
  assert (X : ex (p_entity (Player_reset E superview p)) == 288).
  { unfold Player_reset. rewrite Hv. cbn [p_entity Entity_reset ex].
    rewrite Hw, W. reflexivity. }
  split; [exact Hz|]. split; [exact W|]. split; [exact X|]. split.
  - unfold Player_reset. rewrite Hv. cbn [p_entity Entity_reset ey].
    rewrite Hh. reflexivity.
  - rewrite X. unfold BG_WIDTH. rewrite Hv. split; vm_compute; discriminate.
Qed.

Lemma fixed_player_starts_centred_witness :
  ex (p_entity (Player_reset (sample_env Fixed 1 1 2)
                  (setScreenDimensions (sample_env Fixed 1 1 2) (mkScreen 320 480)
                     (initUI_horz (sample_env Fixed 1 1 2)))
                  (player blank_app)))
  == 288.
Proof.
  exact (proj1 (proj2 (proj2
    (fixed_player_starts_centred (sample_env Fixed 1 1 2) (mkScreen 320 480)
       (setScreenDimensions (sample_env Fixed 1 1 2) (mkScreen 320 480)
          (initUI_horz (sample_env Fixed 1 1 2)))
       (player blank_app) eq_refl eq_refl eq_refl)))).
Defined.
